(** * An LRU cache with per-entry TTL: the cache engine of distributed-cache

    Shallow embedding of the cache engine of [src/main.go] ([CacheEntry],
    [Cache], [NewCache], [Get], [Set], [Delete], [Exists], [Clear], [Stats],
    [Cleanup], [removeEntry], [evictLRU], [calculateHitRate]) and the
    properties of its index / recency-list pair.

    Modelling decisions, all taken from the source:

    - _Pointers._  [c.data] maps keys to [*CacheEntry] and every node of
      [c.lru] holds the same [*CacheEntry]; [Get] mutates the entry in
      place.  The entries therefore live in a store [objs] addressed by
      locations, and both the index and the list hold locations.  [Set] is
      the only place that allocates an entry and the only place that
      allocates a list node ([PushFront]), one node per entry, with
      [element.Value = entry] and [entry.element = element]; a node and its
      entry are addressed by one location.  A location read from the index
      or from the list is always allocated ([inv_index], [inv_list]); the
      branches of the definitions for an unallocated location are there to
      make them total and are never taken from a state with the invariant.
    - _The clock._  Every [time.Now()] of the source is a separate reading
      of the clock, so every operation receives one argument per reading it
      may take.  Instants and durations are integers (nanoseconds),
      [t.Add(d)] is [t + d] and [t.After(u)] is [u < t].
    - _Integers._  [AccessCount] and the [int64] sums of [Stats] and
      [calculateHitRate] wrap ([wrap64]).  [currentSize], [maxSize] and the
      count returned by [Cleanup] are Go [int]s; they count resident
      entries, and [len] of a Go map is itself an [int], so they are
      integers that never leave the range and carry no wrap-around; the
      same holds for the byte total of [Stats], a sum of [len]s of values
      held in memory.
    - _float64._  [calculateHitRate64] is [calculateHitRate] with the value
      it returns, computed by IEEE 754 binary64 conversion and division
      ([float64_of_int], [float64_div]).  [hit_rate_over], and with it the
      [hit_rate] field of [Stats], is the exact rational quotient of the same
      two operands, taken before any rounding.
    - _Locking._  Every method holds [c.mutex] from entry to return, so a
      method is one atomic step on the state.

    The settings the command reads from its environment ([getEnv],
    [getEnvInt], [parseFlags] of [src/main.go]) are embedded as functions of
    the environment, a finite map from the names of the variables that are
    set to their values; [strconv.Atoi] is the one of a platform whose [int]
    has 64 bits. *)

From Stdlib Require Import ZArith QArith.
From Stdlib.Floats Require SpecFloat.
From Stdlib.Strings Require Import Byte Ascii.
From stdpp Require Import base option list gmap strings.

Close Scope Q_scope.
Local Open Scope Z_scope.

(** ** Data model *)

(** Address of a [CacheEntry] (and of the [list.Element] that carries it). *)
Definition loc := nat.

(** [type CacheEntry struct]. [ExpiresAt] is a [*time.Time]: [None] is nil. *)
Record CacheEntry := mkEntry {
  Key : string;
  Value : list byte;
  ExpiresAt : option Z;
  CreatedAt : Z;
  AccessCount : Z;
  LastAccessed : Z;
  element : loc
}.

(** [type Cache struct], together with the store of the entries it points
    to.  [lru] is the [container/list] from front (most recently used) to
    back; [next_loc] is the next address the allocator hands out. *)
Record Cache := mkCache {
  objs : gmap loc CacheEntry;
  next_loc : loc;
  data : gmap string loc;
  lru : list loc;
  maxSize : Z;
  currentSize : Z
}.

(** Two's complement wrap-around of [int64] arithmetic. *)
Definition wrap64 (z : Z) : Z := (z + 2 ^ 63) mod 2 ^ 64 - 2 ^ 63.

(** ** [container/list] *)

Module List_.

(** [l.PushFront(v)]. *)
Definition PushFront (e : loc) (l : list loc) : list loc := e :: l.

(** [l.Remove(e)]: unlinks [e] when it is a node of [l], no-op otherwise. *)
Definition Remove (e : loc) (l : list loc) : list loc :=
  filter (λ x, x ≠ e) l.

(** [l.MoveToFront(e)]: no-op when [e] is not a node of [l] or is
    already its first node. *)
Definition MoveToFront (e : loc) (l : list loc) : list loc :=
  if decide (e ∈ l) then
    if decide (head l = Some e) then l else e :: Remove e l
  else l.

(** [l.Back()]: the last node, nil for an empty list. *)
Definition Back (l : list loc) : option loc := last l.

(** [l.Len()]. *)
Definition Len (l : list loc) : Z := Z.of_nat (length l).

End List_.

(** ** The cache engine *)

(** [NewCache(maxSize)]: one [return] statement, no check on [maxSize]. *)
Definition NewCache (maxSize : Z) : Cache :=
  mkCache ∅ 0%nat ∅ [] maxSize 0.

(** [entry.ExpiresAt != nil && now.After( *entry.ExpiresAt )]. *)
Definition is_expired (e : CacheEntry) (now : Z) : bool :=
  match ExpiresAt e with
  | Some deadline => deadline <? now
  | None => false
  end.

(** [c.removeEntry(entry)], [entry] given by its address.  The address is
    always one taken from [c.data] or [c.lru]; the last branch stands for a
    pointer that was never allocated. *)
Definition removeEntry (c : Cache) (l : loc) : Cache :=
  match objs c !! l with
  | Some e =>
      mkCache (objs c) (next_loc c)
              (delete (Key e) (data c))
              (List_.Remove (element e) (lru c))
              (maxSize c)
              (currentSize c - 1)
  | None => c
  end.

(** [c.evictLRU()]. *)
Definition evictLRU (c : Cache) : Cache :=
  match List_.Back (lru c) with
  | Some l => removeEntry c l
  | None => c
  end.

(** The guard of the eviction loop of [Set]:
    [c.currentSize > c.maxSize && c.lru.Len() > 0]. *)
Definition over_capacity (c : Cache) : bool :=
  (maxSize c <? currentSize c) && (0 <? List_.Len (lru c)).

(** [for c.currentSize > c.maxSize && c.lru.Len() > 0 { c.evictLRU() }],
    at most [fuel] iterations. *)
Fixpoint evict_loop (fuel : nat) (c : Cache) : Cache :=
  match fuel with
  | O => c
  | S fuel' => if over_capacity c then evict_loop fuel' (evictLRU c) else c
  end.

(** Number of iterations [evict_loop] performs. *)
Fixpoint evict_count (fuel : nat) (c : Cache) : nat :=
  match fuel with
  | O => O
  | S fuel' => if over_capacity c then S (evict_count fuel' (evictLRU c)) else O
  end.

(** [Get(key)]. [t_check] is the clock reading of the expiry test,
    [t_access] the one stored in [LastAccessed]. *)
Definition Get (c : Cache) (key : string) (t_check t_access : Z)
  : option (list byte) * Cache :=
  match data c !! key with
  | None => (None, c)
  | Some l =>
      match objs c !! l with
      | None => (None, c)
      | Some e =>
          if is_expired e t_check then (None, removeEntry c l)
          else
            let e' := mkEntry (Key e) (Value e) (ExpiresAt e) (CreatedAt e)
                              (wrap64 (AccessCount e + 1)) t_access (element e) in
            (Some (Value e),
             mkCache (<[l := e']> (objs c)) (next_loc c) (data c)
                     (List_.MoveToFront (element e') (lru c))
                     (maxSize c) (currentSize c))
      end
  end.

(** The part of [Set] before its eviction loop: the old entry of [key] is
    removed, a new entry is allocated, pushed to the front and indexed.
    [t_created], [t_accessed] and [t_expiry] are the three clock readings, the
    last one taken only when [ttl] is not nil. *)
Definition Set_insert (c : Cache) (key : string) (value : list byte)
    (ttl : option Z) (t_created t_accessed t_expiry : Z) : Cache :=
  let c1 := match data c !! key with
            | Some l => removeEntry c l
            | None => c
            end in
  let l := next_loc c1 in
  let entry := mkEntry key value ((λ d, t_expiry + d) <$> ttl)
                       t_created 0 t_accessed l in
  mkCache (<[l := entry]> (objs c1)) (S l)
          (<[key := l]> (data c1))
          (List_.PushFront l (lru c1))
          (maxSize c1)
          (currentSize c1 + 1).

(** [Set(key, value, ttl)] ([Set] itself is a reserved word).  Each
    iteration of the loop unlinks the last node of a non-empty list, so the
    length of the list bounds the number of iterations
    ([evict_loop_exits]). *)
Definition Set_ (c : Cache) (key : string) (value : list byte)
    (ttl : option Z) (t_created t_accessed t_expiry : Z) : Cache :=
  let c2 := Set_insert c key value ttl t_created t_accessed t_expiry in
  evict_loop (length (lru c2)) c2.

(** Number of evictions the call [Set(key, value, ttl)] performs. *)
Definition Set_evictions (c : Cache) (key : string) (value : list byte)
    (ttl : option Z) (t_created t_accessed t_expiry : Z) : nat :=
  let c2 := Set_insert c key value ttl t_created t_accessed t_expiry in
  evict_count (length (lru c2)) c2.

(** [Delete(key)]. *)
Definition Delete (c : Cache) (key : string) : bool * Cache :=
  match data c !! key with
  | Some l => (true, removeEntry c l)
  | None => (false, c)
  end.

(** [Exists(key)], a read under the shared lock. *)
Definition Exists (c : Cache) (key : string) (now : Z) : bool :=
  match data c !! key with
  | None => false
  | Some l =>
      match objs c !! l with
      | Some e => negb (is_expired e now)
      | None => false
      end
  end.

(** [Clear()]. *)
Definition Clear (c : Cache) : Cache :=
  mkCache (objs c) (next_loc c) ∅ [] (maxSize c) 0.

(** One iteration of [for key, entry := range c.data] in [Cleanup]; [key] is
    produced only while it is still in the map, [now] is the clock reading
    taken at this entry.  The second [delete] is the one of the loop body. *)
Definition Cleanup_step (st : Z * Cache) (visit : string * Z) : Z * Cache :=
  let '(expired, c) := st in
  let '(key, now) := visit in
  match data c !! key with
  | None => st
  | Some l =>
      match objs c !! l with
      | None => st
      | Some e =>
          if is_expired e now then
            let c1 := removeEntry c l in
            (expired + 1,
             mkCache (objs c1) (next_loc c1) (delete key (data c1))
                     (lru c1) (maxSize c1) (currentSize c1))
          else st
      end
  end.

(** [Cleanup()]. The order in which [range] produces the keys is not
    specified by Go; [visits] is that order, each key with the clock reading
    taken when its entry is examined. *)
Definition Cleanup (c : Cache) (visits : list (string * Z)) : Z * Cache :=
  foldl Cleanup_step (0, c) visits.

(** A legal iteration of [range c.data]: every key of the map once. *)
Definition range_of (c : Cache) (visits : list (string * Z)) : Prop :=
  NoDup visits.*1 ∧ ∀ k, k ∈ visits.*1 ↔ is_Some (data c !! k).

(** The entries [for _, entry := range c.data] runs over, in one of the
    orders Go may choose ([hit_rate_over_Permutation]: the order does not
    show in the results). *)
Definition resident (c : Cache) : list CacheEntry :=
  omap (λ kl, objs c !! kl.2) (map_to_list (data c)).

(** [totalRequests += entry.AccessCount] over the entries [es]. *)
Definition totalRequests_over (es : list CacheEntry) : Z :=
  foldl (λ acc e, wrap64 (acc + AccessCount e)) 0 es.

(** [if entry.AccessCount > 0 { totalHits++ }] over the entries [es]. *)
Definition totalHits_over (es : list CacheEntry) : Z :=
  foldl (λ acc e, if 0 <? AccessCount e then wrap64 (acc + 1) else acc) 0 es.

(** The body of [calculateHitRate] after its loop, [keys] being
    [len(c.data)], with the quotient taken exactly, before any rounding
    ([calculateHitRate64] has the [float64]). *)
Definition hit_rate_over (es : list CacheEntry) (keys : nat) : Q :=
  if totalRequests_over es =? 0 then 0%Q
  else (inject_Z (totalHits_over es) / inject_Z (Z.of_nat keys))%Q.

(** [calculateHitRate()], the quotient taken exactly. *)
Definition calculateHitRate (c : Cache) : Q :=
  hit_rate_over (resident c) (size (data c)).

(** The map returned by [Stats()]. *)
Record CacheStats := mkStats {
  total_keys : Z;
  max_size : Z;
  current_size : Z;
  total_accesses : Z;
  total_size_bytes : Z;
  hit_rate : Q
}.

(** [Stats()]. *)
Definition Stats (c : Cache) : CacheStats :=
  mkStats (Z.of_nat (size (data c)))
          (maxSize c)
          (currentSize c)
          (totalRequests_over (resident c))
          (foldl (λ acc e, acc + Z.of_nat (length (Value e))) 0 (resident c))
          (calculateHitRate c).

(** How a call of a Go constructor can end. *)
Inductive Outcome (A : Type) : Type :=
  | Returned (a : A)
  | ConfigError (msg : string).
Arguments Returned {A} a.
Arguments ConfigError {A} msg.

(** The outcome of [NewCache(maxSize)]: its result type is [*Cache] alone
    and its body neither tests [maxSize] nor panics. *)
Definition NewCache_outcome (maxSize : Z) : Outcome Cache :=
  Returned (NewCache maxSize).

(** ** The invariant of the index / recency-list pair *)

(** Every indexed key points to a node of the list whose entry carries that
    key, every node of the list is indexed under the key of its entry, no
    node occurs twice, [currentSize] is the length of the list, and the
    allocator has handed out every address in use. *)
Record Inv (c : Cache) : Prop := mkInv {
  inv_nodup : NoDup (lru c);
  inv_index : ∀ k l, data c !! k = Some l →
                l ∈ lru c ∧ ∃ e, objs c !! l = Some e ∧ Key e = k;
  inv_list : ∀ l, l ∈ lru c →
                ∃ e, objs c !! l = Some e ∧ data c !! Key e = Some l;
  inv_size : currentSize c = Z.of_nat (length (lru c));
  inv_alloc : ∀ l e, objs c !! l = Some e → (l < next_loc c)%nat ∧ element e = l
}.

(** The key stored in the entry at [l] (the empty string off the store). *)
Definition key_at (c : Cache) (l : loc) : string :=
  from_option Key "" (objs c !! l).

(** The resident keys in recency order, most recently used first. *)
Definition lru_keys (c : Cache) : list string := key_at c <$> lru c.

(** ** Executions *)

(** The calls that change the state ([Exists] and [Stats] only read it). *)
Inductive Op : Type :=
  | OpGet (key : string) (t_check t_access : Z)
  | OpSet (key : string) (value : list byte) (ttl : option Z)
          (t_created t_accessed t_expiry : Z)
  | OpDelete (key : string)
  | OpClear
  | OpCleanup (visits : list (string * Z)).

Definition run (c : Cache) (op : Op) : Cache :=
  match op with
  | OpGet key t_check t_access => (Get c key t_check t_access).2
  | OpSet key value ttl t_created t_accessed t_expiry =>
      Set_ c key value ttl t_created t_accessed t_expiry
  | OpDelete key => (Delete c key).2
  | OpClear => Clear c
  | OpCleanup visits => (Cleanup c visits).2
  end.

(** [Cleanup] iterates over the keys of the map; the other calls take any
    argument. *)
Definition legal (c : Cache) (op : Op) : Prop :=
  match op with
  | OpCleanup visits => range_of c visits
  | _ => True
  end.

(** The states a cache built by [NewCache(n)] can be in. *)
Inductive Reachable (n : Z) : Cache → Prop :=
  | reach_new : Reachable n (NewCache n)
  | reach_step c op : Reachable n c → legal c op → Reachable n (run c op).

(** The two-key cache used to instantiate the statements: ["a"] without TTL
    at the back, ["b"] expiring at instant 15 at the front. *)
Definition sample : Cache :=
  Set_ (Set_ (NewCache 2) "a" ["x"%byte] None 1 1 1)
       "b" ["y"%byte] (Some 10) 5 5 5.

(** ** Counting over the resident entries *)

(** The sum of the access counters, as an integer. *)
Definition sum_accesses (es : list CacheEntry) : Z :=
  foldr (λ e acc, AccessCount e + acc) 0 es.

(** The number of entries that were read at least once. *)
Definition ever_read (es : list CacheEntry) : nat :=
  length (filter (λ e, 0 < AccessCount e) es).

(** No [int64] of [Stats] leaves its range: the counters are non-negative
    (they start at 0 and [Get] increments them), and neither their sum nor
    the number of keys reaches [2^63]. *)
Definition counters_in_range (c : Cache) : Prop :=
  Forall (λ e, 0 ≤ AccessCount e) (resident c) ∧
  sum_accesses (resident c) < 2 ^ 63 ∧
  Z.of_nat (size (data c)) < 2 ^ 63.

(** [sample] after one successful read of ["a"]. *)
Definition sample_read : Cache := (Get sample "a" 6 6).2.

(** ** Sequences of [Set] calls without TTL *)

(** The arguments of a call [Set(key, value, nil)] and the two clock
    readings it takes (with a nil [ttl] the third reading is not taken). *)
Record SetCall := mkSetCall {
  sc_key : string;
  sc_value : list byte;
  sc_created : Z;
  sc_accessed : Z
}.

Definition do_set (c : Cache) (a : SetCall) : Cache :=
  Set_ c (sc_key a) (sc_value a) None (sc_created a) (sc_accessed a) 0.

(** The calls of the list one after the other, nothing in between. *)
Definition set_all (c : Cache) (calls : list SetCall) : Cache :=
  foldl do_set c calls.

(** The number of evictions over the whole sequence. *)
Fixpoint evictions_all (c : Cache) (calls : list SetCall) : nat :=
  match calls with
  | [] => O
  | a :: calls' =>
      (Set_evictions c (sc_key a) (sc_value a) None (sc_created a) (sc_accessed a) 0
       + evictions_all (do_set c a) calls')%nat
  end.

(** ** What a reader can observe *)

(** What the cache holds under [key]: the value and the deadline of its
    entry, if it has one. *)
Definition stored (c : Cache) (key : string) : option (list byte * option Z) :=
  match data c !! key with
  | Some l =>
      match objs c !! l with
      | Some e => Some (Value e, ExpiresAt e)
      | None => None
      end
  | None => None
  end.

(** What a read at clock reading [now] makes of a stored pair: the value,
    unless the deadline has passed. *)
Definition visible (now : Z) (x : option (list byte * option Z)) : option (list byte) :=
  match x with
  | Some (v, Some deadline) => if deadline <? now then None else Some v
  | Some (v, None) => Some v
  | None => None
  end.

(** The call is [Set(key, ...)]. *)
Definition sets_key (op : Op) (key : string) : Prop :=
  match op with
  | OpSet k _ _ _ _ _ => k = key
  | _ => False
  end.

(** ** The settings read from the environment *)

(** The process environment: the variables that are set, with their
    values.  [os.Getenv] returns the empty string for a variable that is not
    set. *)
Definition Getenv (env : gmap string string) (key : string) : string :=
  default "" (env !! key).

(** The decimal digit a byte stands for, if it is one (['0'] is 48). *)
Definition digit_of (a : ascii) : option Z :=
  let n := Z.of_N (N_of_ascii a) in
  if (48 <=? n) && (n <=? 57) then Some (n - 48) else None.

(** [n = n*10 + int(ch)] over the bytes of [s], an error on the first byte
    that is not a digit. *)
Fixpoint parse_digits (acc : Z) (s : string) : option Z :=
  match s with
  | EmptyString => Some acc
  | String a s' =>
      match digit_of a with
      | Some d => parse_digits (acc * 10 + d) s'
      | None => None
      end
  end.

(** [strconv.Atoi] where [int] has 64 bits; [None] is a non-nil [err].  The
    input is an optional ['+'] or ['-'], then at least one decimal digit and
    nothing else (base 10 admits no underscore and no blank); a value that
    does not fit [int] is a range error. *)
Definition Atoi (s : string) : option Z :=
  match s with
  | EmptyString => None
  | String a rest =>
      let body := if Ascii.eqb a "-" || Ascii.eqb a "+" then rest else s in
      match body with
      | EmptyString => None
      | _ =>
          match parse_digits 0 body with
          | Some n =>
              let v := if Ascii.eqb a "-" then - n else n in
              if (- 2 ^ 63 <=? v) && (v <? 2 ^ 63) then Some v else None
          | None => None
          end
      end
  end.

(** [getEnv(key, defaultValue)]. *)
Definition getEnv (env : gmap string string) (key defaultValue : string) : string :=
  let value := Getenv env key in
  if String.eqb value "" then defaultValue else value.

(** [getEnvInt(key, defaultValue)]. *)
Definition getEnvInt (env : gmap string string) (key : string) (defaultValue : Z) : Z :=
  let value := Getenv env key in
  if String.eqb value "" then defaultValue
  else match Atoi value with
       | Some intValue => intValue
       | None => defaultValue
       end.

(** [type Config struct] of the command. *)
Record Config := mkConfig {
  Host : string;
  Port : Z;
  HTTPPort : Z;
  MaxMemory : string;
  EvictionPolicy : string
}.

(** [parseFlags()]. *)
Definition parseFlags (env : gmap string string) : Config :=
  mkConfig (getEnv env "CACHE_HOST" "0.0.0.0")
           (getEnvInt env "CACHE_PORT" 8080)
           (getEnvInt env "CACHE_HTTP_PORT" 8081)
           (getEnv env "CACHE_MAX_MEMORY" "1GB")
           (getEnv env "CACHE_EVICTION_POLICY" "lru").

(** The bytes of a string. *)
Fixpoint bytes_of (s : string) : list ascii :=
  match s with
  | EmptyString => []
  | String a s' => a :: bytes_of s'
  end.

(** ** [float64] *)

(** [float64(n)] for an integer [n]: the IEEE 754 binary64 number nearest to
    [n], ties to even (precision 53, exponent of the infinities 1024). *)
Definition float64_of_int (n : Z) : SpecFloat.spec_float :=
  SpecFloat.binary_normalize 53 1024 n 0 false.

(** [x / y] on [float64]: IEEE 754 binary64 division, round to nearest,
    ties to even; [0 / 0] is NaN. *)
Definition float64_div (x y : SpecFloat.spec_float) : SpecFloat.spec_float :=
  SpecFloat.SFdiv 53 1024 x y.

(** The rational a finite [float64] denotes. *)
Definition float64_value (x : SpecFloat.spec_float) : option Q :=
  match x with
  | SpecFloat.S754_zero _ => Some 0%Q
  | SpecFloat.S754_finite s m e =>
      Some (inject_Z (if s then Z.neg m else Z.pos m) * Qpower (2 # 1) e)%Q
  | _ => None
  end.

(** [calculateHitRate()] with the [float64] it returns: the two loops, the
    test of [totalRequests], and
    [float64(totalHits) / float64(len(c.data))]. *)
Definition calculateHitRate64 (c : Cache) : SpecFloat.spec_float :=
  let totalRequests := totalRequests_over (resident c) in
  let totalHits := totalHits_over (resident c) in
  if totalRequests =? 0 then SpecFloat.S754_zero false
  else float64_div (float64_of_int totalHits)
                   (float64_of_int (Z.of_nat (size (data c)))).

(** Three resident keys, one of them read once. *)
Definition three_keys_one_read : Cache :=
  (Get (Set_ (Set_ (Set_ (NewCache 3) "a" ["x"%byte] None 1 1 1)
                   "b" ["y"%byte] None 2 2 2)
             "c" ["z"%byte] None 3 3 3)
       "a" 4 4).2.

(** ** Lists *)

Section list_facts.
Implicit Types (e x : loc) (l : list loc).

Lemma elem_of_Remove e x l : x ∈ List_.Remove e l ↔ x ∈ l ∧ x ≠ e.
Proof. unfold List_.Remove. rewrite list_elem_of_filter. tauto. Qed.

Lemma NoDup_Remove e l : NoDup l → NoDup (List_.Remove e l).
Proof. apply NoDup_filter. Qed.

Lemma Remove_absent e l : e ∉ l → List_.Remove e l = l.
Proof.
  unfold List_.Remove. induction l as [|x l IH]; [done|].
  rewrite not_elem_of_cons. intros [Hne Hnin].
  rewrite filter_cons_True by congruence. by rewrite IH.
Qed.

Lemma Remove_head e l : e ∉ l → List_.Remove e (e :: l) = l.
Proof.
  intros. unfold List_.Remove. rewrite filter_cons_False by naive_solver.
  by apply Remove_absent.
Qed.

Lemma Remove_app e l1 l2 :
  List_.Remove e (l1 ++ l2) = List_.Remove e l1 ++ List_.Remove e l2.
Proof. apply filter_app. Qed.

Lemma Remove_back e l : e ∉ l → List_.Remove e (l ++ [e]) = l.
Proof.
  intros. rewrite Remove_app, Remove_absent by done.
  unfold List_.Remove. rewrite filter_cons_False by naive_solver.
  by rewrite filter_nil, app_nil_r.
Qed.

Lemma length_Remove e l :
  NoDup l → e ∈ l → S (length (List_.Remove e l)) = length l.
Proof.
  induction 1 as [|x l Hx Hnd IH]; [by rewrite elem_of_nil|].
  rewrite elem_of_cons. intros Hin.
  destruct (decide (x = e)) as [->|Hne].
  - by rewrite Remove_head.
  - unfold List_.Remove. rewrite filter_cons_True by done. simpl.
    f_equal. apply IH. by destruct Hin as [->|?].
Qed.

Lemma Back_snoc l x : List_.Back (l ++ [x]) = Some x.
Proof. apply last_snoc. Qed.

Lemma Back_Some l x : List_.Back l = Some x → ∃ l', l = l' ++ [x].
Proof.
  unfold List_.Back. destruct l as [|y l] using rev_ind; [done|].
  rewrite last_snoc. intros [= ->]. eauto.
Qed.

Lemma Back_None l : List_.Back l = None → l = [].
Proof.
  unfold List_.Back. destruct l as [|y l] using rev_ind; [done|].
  by rewrite last_snoc.
Qed.

Lemma elem_of_MoveToFront e x l : x ∈ List_.MoveToFront e l ↔ x ∈ l.
Proof.
  unfold List_.MoveToFront. repeat case_decide; try done.
  rewrite elem_of_cons, elem_of_Remove.
  destruct (decide (x = e)) as [->|?]; tauto.
Qed.

Lemma NoDup_MoveToFront e l : NoDup l → NoDup (List_.MoveToFront e l).
Proof.
  intros. unfold List_.MoveToFront. repeat case_decide; try done.
  apply NoDup_cons. split; [|by apply NoDup_Remove].
  rewrite elem_of_Remove. by intros [_ ?].
Qed.

Lemma length_MoveToFront e l :
  NoDup l → length (List_.MoveToFront e l) = length l.
Proof.
  intros. unfold List_.MoveToFront. repeat case_decide; try done.
  simpl. by apply length_Remove.
Qed.

Lemma MoveToFront_head e l :
  NoDup l → e ∈ l → List_.MoveToFront e l = e :: List_.Remove e l.
Proof.
  intros Hnd Hin. unfold List_.MoveToFront.
  rewrite decide_True by done. case_decide as Hhd; [|done].
  destruct l as [|x l]; simplify_eq/=.
  apply NoDup_cons in Hnd as [? ?]. by rewrite Remove_head.
Qed.

End list_facts.

(** A key occurring once in a list of pairs has one partner. *)
Lemma NoDup_fst_unique {A B} (l : list (A * B)) x y1 y2 :
  NoDup l.*1 → (x, y1) ∈ l → (x, y2) ∈ l → y1 = y2.
Proof.
  induction l as [|[a b] l IH]; csimpl; [by rewrite elem_of_nil|].
  rewrite NoDup_cons, !elem_of_cons. intros [Hnin Hnd] H1 H2.
  assert (∀ y, (x, y) ∈ l → x ∈ l.*1) as Hfst.
  { intros y Hy. apply list_elem_of_fmap. by exists (x, y). }
  destruct H1 as [H1|H1], H2 as [H2|H2].
  - congruence.
  - injection H1 as -> ->. destruct Hnin. eauto.
  - injection H2 as -> ->. destruct Hnin. eauto.
  - eauto.
Qed.

(** ** Removal keeps the two structures together *)

Section removal.
Variable c : Cache.
Hypothesis HI : Inv c.

(** A node of the list: [removeEntry] unlinks it, deletes its key from the
    index and decrements the size by one. *)
Lemma removeEntry_node l :
  l ∈ lru c →
  ∃ e, objs c !! l = Some e ∧ data c !! Key e = Some l ∧
       removeEntry c l =
         mkCache (objs c) (next_loc c) (delete (Key e) (data c))
                 (List_.Remove l (lru c)) (maxSize c) (currentSize c - 1).
Proof.
  intros Hin. destruct (inv_list c HI l Hin) as (e & He & Hk).
  exists e. split; [done|]. split; [done|].
  unfold removeEntry. rewrite He.
  by destruct (inv_alloc c HI l e He) as [_ ->].
Qed.

(** An indexed key: same thing, and the deleted key is [k] itself. *)
Lemma removeEntry_indexed k l :
  data c !! k = Some l →
  removeEntry c l =
    mkCache (objs c) (next_loc c) (delete k (data c))
            (List_.Remove l (lru c)) (maxSize c) (currentSize c - 1).
Proof.
  intros Hk. destruct (inv_index c HI k l Hk) as (Hin & e & He & <-).
  destruct (removeEntry_node l Hin) as (e' & He' & _ & ->). by simplify_eq.
Qed.

Lemma index_inj k1 k2 l :
  data c !! k1 = Some l → data c !! k2 = Some l → k1 = k2.
Proof.
  intros H1 H2.
  destruct (inv_index c HI _ _ H1) as (_ & e1 & He1 & <-).
  destruct (inv_index c HI _ _ H2) as (_ & e2 & He2 & <-).
  by simplify_eq.
Qed.

Lemma removeEntry_Inv l : l ∈ lru c → Inv (removeEntry c l).
Proof.
  intros Hin. destruct (removeEntry_node l Hin) as (e & He & Hk & ->).
  destruct HI as [Hnd Hidx Hlst Hsz Hal]. split; simpl.
  - by apply NoDup_Remove.
  - intros k l'. rewrite lookup_delete_Some. intros [Hne Hk'].
    destruct (Hidx _ _ Hk') as (Hin' & e' & He' & Hke').
    split; [|by eauto]. apply elem_of_Remove. split; [done|].
    intros ->. by simplify_eq.
  - intros l'. rewrite elem_of_Remove. intros [Hin' Hne].
    destruct (Hlst _ Hin') as (e' & He' & Hk').
    exists e'. split; [done|]. rewrite lookup_delete_ne; [done|].
    intros Heq. rewrite Heq in Hk. simplify_eq.
  - apply (length_Remove l) in Hin; [|done]. lia.
  - done.
Qed.

End removal.

Lemma removeEntry_maxSize c l : maxSize (removeEntry c l) = maxSize c.
Proof. unfold removeEntry. by destruct (objs c !! l). Qed.

Lemma removeEntry_objs c l : objs (removeEntry c l) = objs c.
Proof. unfold removeEntry. by destruct (objs c !! l). Qed.

(** ** Every operation preserves the invariant *)

Lemma NewCache_Inv n : Inv (NewCache n).
Proof.
  split; simpl; [apply NoDup_nil_2|done| |done|done].
  intros l. by rewrite elem_of_nil.
Qed.

Lemma Clear_Inv c : Inv c → Inv (Clear c).
Proof.
  intros HI. split; simpl; [apply NoDup_nil_2|done| |done|apply (inv_alloc c HI)].
  intros l. by rewrite elem_of_nil.
Qed.

Lemma Delete_Inv c key : Inv c → Inv (Delete c key).2.
Proof.
  intros HI. unfold Delete. destruct (data c !! key) as [l|] eqn:Hk; [|done].
  simpl. apply removeEntry_Inv; [done|]. by apply (inv_index c HI key).
Qed.

Lemma evictLRU_Inv c : Inv c → Inv (evictLRU c).
Proof.
  intros HI. unfold evictLRU. destruct (List_.Back (lru c)) as [l|] eqn:Hb; [|done].
  apply removeEntry_Inv; [done|].
  apply Back_Some in Hb as [l' ->]. set_solver.
Qed.

Lemma evict_loop_Inv fuel c : Inv c → Inv (evict_loop fuel c).
Proof.
  revert c. induction fuel as [|fuel IH]; intros c HI; simpl; [done|].
  destruct (over_capacity c); [|done]. by apply IH, evictLRU_Inv.
Qed.

Lemma Get_Inv c key t_check t_access : Inv c → Inv (Get c key t_check t_access).2.
Proof.
  intros HI. unfold Get.
  destruct (data c !! key) as [l|] eqn:Hk; [|done].
  destruct (inv_index c HI key l Hk) as (Hin & e & He & Hke).
  rewrite He. destruct (is_expired e t_check); simpl.
  { by apply removeEntry_Inv. }
  destruct (inv_alloc c HI l e He) as [Hlt Hel]. rewrite Hel.
  destruct HI as [Hnd Hidx Hlst Hsz Hal]. split; simpl.
  - by apply NoDup_MoveToFront.
  - intros k l' Hk'. rewrite elem_of_MoveToFront.
    destruct (Hidx _ _ Hk') as (Hin' & e' & He' & Hke').
    split; [done|]. destruct (decide (l' = l)) as [->|Hne].
    + rewrite lookup_insert_eq. simplify_eq. eauto.
    + rewrite lookup_insert_ne by done. eauto.
  - intros l'. rewrite elem_of_MoveToFront. intros Hin'.
    destruct (Hlst _ Hin') as (e' & He' & Hk').
    destruct (decide (l' = l)) as [->|Hne].
    + rewrite lookup_insert_eq. simplify_eq. eauto.
    + rewrite lookup_insert_ne by done. eauto.
  - by rewrite length_MoveToFront.
  - intros l' e'. destruct (decide (l' = l)) as [->|Hne].
    + rewrite lookup_insert_eq. intros [= <-]. done.
    + rewrite lookup_insert_ne by done. apply Hal.
Qed.

Lemma Set_insert_Inv c key value ttl t1 t2 t3 :
  Inv c → Inv (Set_insert c key value ttl t1 t2 t3).
Proof.
  intros HI0. unfold Set_insert.
  set (c1 := match data c !! key with Some l => removeEntry c l | None => c end).
  assert (Inv c1 ∧ data c1 !! key = None) as [HI Hfresh].
  { subst c1. destruct (data c !! key) as [l|] eqn:Hk; [|done].
    split.
    - apply removeEntry_Inv; [done|]. by apply (inv_index c HI0 key).
    - rewrite (removeEntry_indexed c HI0 key l Hk). simpl. apply lookup_delete_eq. }
  clearbody c1. clear HI0 c.
  assert (Hnew : objs c1 !! next_loc c1 = None).
  { destruct (objs c1 !! next_loc c1) as [e|] eqn:He; [|done].
    apply (inv_alloc c1 HI) in He as [? _]. lia. }
  assert (Hnin : next_loc c1 ∉ lru c1).
  { intros Hin. apply (inv_list c1 HI) in Hin as (e & He & _). congruence. }
  destruct HI as [Hnd Hidx Hlst Hsz Hal]. unfold List_.PushFront. split; simpl.
  - by apply NoDup_cons.
  - intros k l. rewrite lookup_insert_Some, elem_of_cons.
    intros [[<- <-]|[Hne Hk]].
    + split; [by left|]. rewrite lookup_insert_eq. eauto.
    + destruct (Hidx _ _ Hk) as (Hin & e & He & Hke).
      split; [by right|]. rewrite lookup_insert_ne by congruence. eauto.
  - intros l. rewrite elem_of_cons. intros [->|Hin].
    + rewrite lookup_insert_eq. eexists. split; [done|]. simpl.
      by rewrite lookup_insert_eq.
    + destruct (Hlst _ Hin) as (e & He & Hk).
      rewrite lookup_insert_ne by congruence. exists e. split; [done|].
      rewrite lookup_insert_ne; [done|]. congruence.
  - lia.
  - intros l e. rewrite lookup_insert_Some. intros [[<- <-]|[Hne He]].
    + simpl. split; [lia|done].
    + destruct (Hal _ _ He). split; [lia|done].
Qed.

Lemma Set_Inv c key value ttl t1 t2 t3 :
  Inv c → Inv (Set_ c key value ttl t1 t2 t3).
Proof. intros. unfold Set_. by apply evict_loop_Inv, Set_insert_Inv. Qed.

(** ** The index and the list have the same members *)

Section index_and_list.
Variable c : Cache.
Hypothesis HI : Inv c.

Lemma key_at_entry l e : objs c !! l = Some e → key_at c l = Key e.
Proof. unfold key_at. by intros ->. Qed.

(** The index is the graph of [key_at] over the nodes of the list. *)
Lemma index_iff_node k l :
  data c !! k = Some l ↔ l ∈ lru c ∧ key_at c l = k.
Proof.
  split.
  - intros Hk. destruct (inv_index c HI k l Hk) as (Hin & e & He & <-).
    split; [done|]. by apply key_at_entry.
  - intros [Hin <-]. destruct (inv_list c HI l Hin) as (e & He & Hk).
    by rewrite (key_at_entry l e He).
Qed.

Lemma index_perm_list :
  map_to_list (data c) ≡ₚ (λ l, (key_at c l, l)) <$> lru c.
Proof.
  apply NoDup_Permutation.
  - apply NoDup_map_to_list.
  - apply NoDup_fmap_2; [|apply (inv_nodup c HI)]. by intros l1 l2 [= _ ->].
  - intros [k l]. rewrite elem_of_map_to_list, index_iff_node, list_elem_of_fmap.
    split.
    + intros [Hin <-]. eauto.
    + intros (l' & [= -> ->] & Hin). done.
Qed.

(** Both structures have the same cardinality. *)
Lemma index_size_list : size (data c) = length (lru c).
Proof.
  rewrite <- length_map_to_list, index_perm_list. apply length_fmap.
Qed.

Lemma key_at_inj l1 l2 :
  l1 ∈ lru c → l2 ∈ lru c → key_at c l1 = key_at c l2 → l1 = l2.
Proof.
  intros H1 H2 Heq.
  assert (data c !! key_at c l1 = Some l1) as Ha by by apply index_iff_node.
  assert (data c !! key_at c l2 = Some l2) as Hb by by apply index_iff_node.
  rewrite Heq in Ha. congruence.
Qed.

Lemma NoDup_lru_keys : NoDup (lru_keys c).
Proof.
  unfold lru_keys. apply NoDup_fmap_2_strong; [|apply (inv_nodup c HI)].
  intros l1 l2 ???. by apply key_at_inj.
Qed.

Lemma elem_of_lru_keys k : k ∈ lru_keys c ↔ is_Some (data c !! k).
Proof.
  unfold lru_keys. rewrite list_elem_of_fmap. split.
  - intros (l & -> & Hin). exists l. by apply index_iff_node.
  - intros [l Hk]. apply index_iff_node in Hk as [? <-]. eauto.
Qed.

End index_and_list.

(** ** The eviction loop *)

Section eviction.

(** With a non-empty list, [evictLRU] removes exactly its last node. *)
Lemma evictLRU_back c ls l :
  Inv c → lru c = ls ++ [l] →
  evictLRU c =
    mkCache (objs c) (next_loc c) (delete (key_at c l) (data c)) ls
            (maxSize c) (currentSize c - 1).
Proof.
  intros HI Hl. unfold evictLRU. rewrite Hl, Back_snoc.
  assert (Hin : l ∈ lru c) by (rewrite Hl; set_solver).
  destruct (removeEntry_node c HI l Hin) as (e & He & Hk & ->).
  rewrite (key_at_entry c l e He), Hl, Remove_back; [done|].
  pose proof (inv_nodup c HI) as Hnd. rewrite Hl in Hnd.
  apply NoDup_app in Hnd as (_ & Hd & _). intros ?. eapply Hd; [done|set_solver].
Qed.

Lemma evictLRU_empty c : lru c = [] → evictLRU c = c.
Proof. intros Hl. unfold evictLRU. by rewrite Hl. Qed.

Lemma evictLRU_length c :
  Inv c → lru c ≠ [] → S (length (lru (evictLRU c))) = length (lru c).
Proof.
  intros HI Hne. destruct (lru c) as [|x ls] eqn:Hl using rev_ind; [done|].
  rewrite (evictLRU_back c ls x HI Hl). simpl. rewrite length_app. simpl. lia.
Qed.

Lemma over_capacity_true c :
  over_capacity c = true ↔ maxSize c < currentSize c ∧ lru c ≠ [].
Proof.
  unfold over_capacity, List_.Len.
  rewrite andb_true_iff, !Z.ltb_lt. destruct (lru c); simpl; [|split; intros []; split; try done; lia].
  split; intros []; [lia|done].
Qed.

(** The fuel [Set] gives the loop is enough: on return the guard is false. *)
Lemma evict_loop_exits fuel c :
  Inv c → (length (lru c) ≤ fuel)%nat →
  over_capacity (evict_loop fuel c) = false.
Proof.
  revert c. induction fuel as [|fuel IH]; intros c HI Hlen; simpl.
  - destruct (over_capacity c) eqn:Ho; [|done].
    apply over_capacity_true in Ho as [_ Hne]. destruct (lru c); simpl in *; [done|lia].
  - destruct (over_capacity c) eqn:Ho; [|done].
    apply over_capacity_true in Ho as [_ Hne].
    apply IH; [by apply evictLRU_Inv|].
    pose proof (evictLRU_length c HI Hne). lia.
Qed.

(** The loop only ever drops nodes from the back: what is left is a
    prefix of the list, shorter by the number of iterations. *)
Lemma evict_loop_prefix fuel c :
  Inv c →
  lru (evict_loop fuel c) =
    take (length (lru c) - evict_count fuel c) (lru c).
Proof.
  revert c. induction fuel as [|fuel IH]; intros c HI; simpl.
  - by rewrite Nat.sub_0_r, firstn_all.
  - destruct (over_capacity c) eqn:Ho; [|by rewrite Nat.sub_0_r, firstn_all].
    apply over_capacity_true in Ho as [_ Hne].
    rewrite IH by by apply evictLRU_Inv.
    destruct (lru c) as [|x ls] eqn:Hl using rev_ind; [done|].
    rewrite (evictLRU_back c ls x HI Hl). simpl. rewrite length_app. simpl.
    rewrite take_app_le by lia. f_equal. lia.
Qed.

Lemma evict_loop_maxSize fuel c : maxSize (evict_loop fuel c) = maxSize c.
Proof.
  revert c. induction fuel as [|fuel IH]; intros c; simpl; [done|].
  destruct (over_capacity c); [|done]. rewrite IH. unfold evictLRU.
  destruct (List_.Back (lru c)); [|done]. apply removeEntry_maxSize.
Qed.

Lemma evict_loop_within fuel c :
  currentSize c ≤ maxSize c →
  evict_loop fuel c = c ∧ evict_count fuel c = O.
Proof.
  intros Hle. assert (over_capacity c = false) as Ho.
  { unfold over_capacity. apply andb_false_iff. left. by apply Z.ltb_ge. }
  destruct fuel; simpl; by rewrite ?Ho.
Qed.

(** One entry too many: the loop runs once. *)
Lemma evict_loop_once fuel c :
  Inv c → currentSize c = maxSize c + 1 → lru c ≠ [] →
  evict_loop (S fuel) c = evictLRU c ∧ evict_count (S fuel) c = 1%nat.
Proof.
  intros HI Hsz Hne. simpl.
  assert (over_capacity c = true) as ->.
  { apply over_capacity_true. split; [lia|done]. }
  destruct (evict_loop_within fuel (evictLRU c)) as [-> ->]; [|done].
  destruct (lru c) as [|x ls] eqn:Hl using rev_ind; [done|].
  rewrite (evictLRU_back c ls x HI Hl). simpl. lia.
Qed.

End eviction.

(** ** [Cleanup] *)

Section cleanup.

(** An expired entry met by the loop: under the invariant the key of the
    entry is the key [range] produced, so the second [delete] of the loop
    body finds nothing left to delete and the step is one [removeEntry]. *)
Lemma Cleanup_step_expired c n k t l e :
  Inv c → data c !! k = Some l → objs c !! l = Some e →
  is_expired e t = true →
  Cleanup_step (n, c) (k, t) = (n + 1, removeEntry c l).
Proof.
  intros HI Hk He Hexp. unfold Cleanup_step. rewrite Hk, He, Hexp.
  rewrite (removeEntry_indexed c HI k l Hk). simpl.
  by rewrite delete_delete_eq.
Qed.

Lemma Cleanup_step_kept c n k t :
  (∀ l e, data c !! k = Some l → objs c !! l = Some e → is_expired e t = false) →
  Cleanup_step (n, c) (k, t) = (n, c).
Proof.
  intros Hkeep. unfold Cleanup_step.
  destruct (data c !! k) as [l|] eqn:Hk; [|done].
  destruct (objs c !! l) as [e|] eqn:He; [|done].
  by rewrite (Hkeep l e eq_refl He).
Qed.

(** What one iteration does, by cases. *)
Lemma Cleanup_step_cases c n k t :
  Inv c →
  (∃ l e, data c !! k = Some l ∧ objs c !! l = Some e ∧
          is_expired e t = true ∧
          Cleanup_step (n, c) (k, t) = (n + 1, removeEntry c l)) ∨
  ((∀ l e, data c !! k = Some l → objs c !! l = Some e → is_expired e t = false) ∧
   Cleanup_step (n, c) (k, t) = (n, c)).
Proof.
  intros HI.
  destruct (data c !! k) as [l|] eqn:Hk.
  2:{ right. split; [done|]. apply Cleanup_step_kept. intros l e. by rewrite Hk. }
  destruct (inv_index c HI k l Hk) as (_ & e & He & _).
  destruct (is_expired e t) eqn:Hexp.
  - left. exists l, e. split; [done|]. split; [done|]. split; [done|].
    by apply (Cleanup_step_expired c n k t l e).
  - assert (∀ l' e', data c !! k = Some l' → objs c !! l' = Some e' → is_expired e' t = false) as Hkeep.
    { intros l' e' Hk' He'. rewrite Hk in Hk'. injection Hk' as <-.
      rewrite He in He'. by injection He' as <-. }
    right. split; [|by apply Cleanup_step_kept].
    intros l0 e0 [= <-]. by apply Hkeep.
Qed.

(** The state of the loop after any sequence of iterations. *)
Lemma Cleanup_fold visits : ∀ n c,
  Inv c →
  let r := foldl Cleanup_step (n, c) visits in
  Inv r.2 ∧ objs r.2 = objs c ∧ maxSize r.2 = maxSize c ∧
  sublist (lru r.2) (lru c) ∧
  r.1 = n + Z.of_nat (length (lru c)) - Z.of_nat (length (lru r.2)) ∧
  (∀ l, l ∈ lru r.2 ↔
        l ∈ lru c ∧
        ∀ e t, objs c !! l = Some e → (Key e, t) ∈ visits → is_expired e t = false).
Proof.
  induction visits as [|[k t] vs IH]; intros n c HI; cbn [foldl].
  { simpl. split; [done|]. split; [done|]. split; [done|]. split; [done|].
    split; [lia|]. intros l. split; [|by intros [? _]].
    intros Hl. split; [done|]. intros e t _. by rewrite elem_of_nil. }
  destruct (Cleanup_step_cases c n k t HI)
    as [(lk & ek & Hk & Hek & Hexp & ->)|[Hkeep ->]].
  - assert (Hin : lk ∈ lru c) by by apply (inv_index c HI k).
    specialize (IH (n + 1) (removeEntry c lk) (removeEntry_Inv c HI lk Hin)).
    simpl in IH. destruct IH as (HI' & Hobjs & Hmax & Hsub & Hcnt & Hmem).
    rewrite removeEntry_objs in Hobjs. rewrite removeEntry_maxSize in Hmax.
    rewrite removeEntry_objs in Hmem.
    assert (Hlru : lru (removeEntry c lk) = List_.Remove lk (lru c))
      by by rewrite (removeEntry_indexed c HI k lk Hk).
    rewrite Hlru in Hsub, Hcnt, Hmem.
    pose proof (length_Remove lk (lru c) (inv_nodup c HI) Hin) as Hlen.
    split; [done|]. split; [done|]. split; [done|].
    split; [etrans; [done|apply sublist_filter]|]. split; [lia|].
    intros l. rewrite Hmem, elem_of_Remove. split.
    + intros [[Hl Hne] Hvs]. split; [done|]. intros e t' He.
      rewrite elem_of_cons. intros [[= Hke ->]|Hv]; [|by eapply Hvs].
      destruct (inv_list c HI l Hl) as (e' & He' & Hk').
      rewrite He in He'. injection He' as <-. rewrite Hke, Hk in Hk'. congruence.
    + intros [Hl Hvs]. split; [split; [done|]|].
      * intros ->. destruct (inv_index c HI k lk Hk) as (_ & e' & He' & Hke').
        rewrite Hek in He'. injection He' as <-.
        assert (is_expired ek t = false) as Hno.
        { apply Hvs; [done|]. rewrite Hke'. by left. }
        congruence.
      * intros e t' He Hv. eapply Hvs; [done|]. by right.
  - specialize (IH n c HI). simpl in IH.
    destruct IH as (HI' & Hobjs & Hmax & Hsub & Hcnt & Hmem).
    repeat (split; [done|]).
    intros l. rewrite Hmem. split.
    + intros [Hl Hvs]. split; [done|]. intros e t' He.
      rewrite elem_of_cons. intros [[= Hke ->]|Hv]; [|by eapply Hvs].
      destruct (inv_list c HI l Hl) as (e' & He' & Hk').
      rewrite He in He'. injection He' as <-. rewrite Hke in Hk'.
      by eapply Hkeep.
    + intros [Hl Hvs]. split; [done|].
      intros e t' He Hv. eapply Hvs; [done|]. by right.
Qed.

Lemma Cleanup_Inv c visits : Inv c → Inv (Cleanup c visits).2.
Proof. intros HI. apply (Cleanup_fold visits 0 c HI). Qed.

End cleanup.

(** ** Facts about executions *)

Lemma run_Inv c op : Inv c → Inv (run c op).
Proof.
  intros HI. destruct op; simpl.
  - by apply Get_Inv.
  - by apply Set_Inv.
  - by apply Delete_Inv.
  - by apply Clear_Inv.
  - by apply Cleanup_Inv.
Qed.

Lemma over_capacity_false c :
  over_capacity c = false ↔ currentSize c ≤ maxSize c ∨ lru c = [].
Proof.
  rewrite <- not_true_iff_false, over_capacity_true.
  destruct (lru c) as [|x ls].
  { split; [by right|]. by intros _ [_ ?]. }
  split.
  - intros Hn. left. destruct (decide (currentSize c ≤ maxSize c)); [done|].
    exfalso. apply Hn. split; [lia|done].
  - intros [?|?] [? _]; [lia|done].
Qed.

(** A removal never takes a cache over its capacity. *)
Lemma removeEntry_fits c l :
  Inv c → l ∈ lru c → over_capacity c = false →
  over_capacity (removeEntry c l) = false.
Proof.
  intros HI Hin. rewrite !over_capacity_false. intros [Hle|Hnil].
  - left. destruct (removeEntry_node c HI l Hin) as (e & _ & _ & ->). simpl. lia.
  - rewrite Hnil in Hin. by apply elem_of_nil in Hin.
Qed.

Lemma Set_fits c key value ttl t1 t2 t3 :
  Inv c → over_capacity (Set_ c key value ttl t1 t2 t3) = false.
Proof.
  intros HI. unfold Set_. apply evict_loop_exits; [|done].
  by apply Set_insert_Inv.
Qed.

Lemma Cleanup_fits c visits :
  Inv c → over_capacity c = false → over_capacity (Cleanup c visits).2 = false.
Proof.
  intros HI. unfold Cleanup. generalize 0.
  revert c HI. induction visits as [|[k t] vs IH]; intros c HI n Hfit; [done|].
  cbn [foldl].
  destruct (Cleanup_step_cases c n k t HI)
    as [(lk & ek & Hk & Hek & Hexp & ->)|[Hkeep ->]]; [|by apply IH].
  assert (lk ∈ lru c) by by apply (inv_index c HI k).
  apply IH; [by apply removeEntry_Inv|by apply removeEntry_fits].
Qed.

Lemma run_fits c op :
  Inv c → over_capacity c = false → over_capacity (run c op) = false.
Proof.
  intros HI Hfit. destruct op; simpl.
  - unfold Get. destruct (data c !! key) as [l|] eqn:Hk; [|done].
    destruct (inv_index c HI key l Hk) as (Hin & e & He & _). rewrite He.
    destruct (is_expired e t_check); simpl; [by apply removeEntry_fits|].
    revert Hfit. rewrite !over_capacity_false. simpl.
    intros [?|Hnil]; [by left|]. rewrite Hnil in Hin. by apply elem_of_nil in Hin.
  - by apply Set_fits.
  - unfold Delete. destruct (data c !! key) as [l|] eqn:Hk; [|done].
    simpl. apply removeEntry_fits; [done| |done]. by apply (inv_index c HI key).
  - apply over_capacity_false. by right.
  - by apply Cleanup_fits.
Qed.

Lemma run_maxSize c op : maxSize (run c op) = maxSize c.
Proof.
  destruct op; simpl.
  - unfold Get. destruct (data c !! key) as [l|]; [|done].
    destruct (objs c !! l) as [e|]; [|done].
    destruct (is_expired e t_check); [apply removeEntry_maxSize|done].
  - unfold Set_. rewrite evict_loop_maxSize. unfold Set_insert. simpl.
    destruct (data c !! key); [apply removeEntry_maxSize|done].
  - unfold Delete. destruct (data c !! key); [apply removeEntry_maxSize|done].
  - done.
  - unfold Cleanup. generalize 0. revert c.
    induction visits as [|[k t] vs IH]; intros c n; [done|]. cbn [foldl].
    unfold Cleanup_step at 2.
    destruct (data c !! k) as [l|]; [|apply IH].
    destruct (objs c !! l) as [e|] eqn:He; [|apply IH].
    destruct (is_expired e t); [|apply IH].
    rewrite IH. simpl. apply removeEntry_maxSize.
Qed.

(** Every reachable state satisfies the invariant, keeps the capacity it
    was built with, and is not over capacity. *)
Lemma Reachable_Inv n c :
  Reachable n c → Inv c ∧ maxSize c = n ∧ over_capacity c = false.
Proof.
  induction 1 as [|c op _ (HI & Hmax & Hfit) _].
  - split; [apply NewCache_Inv|]. split; [done|]. apply over_capacity_false. by right.
  - split; [by apply run_Inv|]. split; [by rewrite run_maxSize|by apply run_fits].
Qed.

(** Capacity zero or below: nothing is ever resident. *)
Lemma Reachable_no_room n c : n ≤ 0 → Reachable n c → lru c = [] ∧ data c = ∅.
Proof.
  intros Hn Hr. destruct (Reachable_Inv n c Hr) as (HI & Hmax & Hfit).
  assert (Hnil : lru c = []).
  { apply over_capacity_false in Hfit as [Hle|]; [|done].
    rewrite (inv_size c HI) in Hle. destruct (lru c); [done|simpl in *; lia]. }
  split; [done|]. apply map_size_empty_inv.
  by rewrite (index_size_list c HI), Hnil.
Qed.

(** * The claims *)

(** ** C1: the index and the recency list stay in step *)

(** C1. Every state-changing operation ([Get], [Set], [Delete], [Clear],
    [Cleanup], here [run c op]) preserves the invariant: afterwards the keys
    of the index are exactly the keys of the nodes of the recency list, no
    key has two nodes, and [currentSize], the number of indexed keys and the
    length of the list are one number.  Every removal path is one
    [removeEntry], which takes the entry out of the index and out of the
    list together and decrements [currentSize] once: the lazy expiration of
    [Get], [Delete], the eviction of [Set], and the iteration of [Cleanup],
    whose second [delete] on the same key changes nothing. *)
Theorem operations_preserve_index_list_invariant (c : Cache) (op : Op) :
  Inv c →
  (Inv (run c op) ∧
   (∀ k, k ∈ lru_keys (run c op) ↔ is_Some (data (run c op) !! k)) ∧
   NoDup (lru_keys (run c op)) ∧
   size (data (run c op)) = length (lru (run c op)) ∧
   currentSize (run c op) = Z.of_nat (size (data (run c op)))) ∧
  (∀ l, l ∈ lru c →
     data (removeEntry c l) = delete (key_at c l) (data c) ∧
     data c !! key_at c l = Some l ∧
     lru (removeEntry c l) = List_.Remove l (lru c) ∧
     (l ∉ lru (removeEntry c l)) ∧
     S (length (lru (removeEntry c l))) = length (lru c) ∧
     S (size (data (removeEntry c l))) = size (data c) ∧
     currentSize (removeEntry c l) = currentSize c - 1) ∧
  (∀ k l e t t' n, data c !! k = Some l → objs c !! l = Some e →
     is_expired e t = true →
     Get c k t t' = (None, removeEntry c l) ∧
     Cleanup_step (n, c) (k, t) = (n + 1, removeEntry c l)) ∧
  (∀ k l, data c !! k = Some l → Delete c k = (true, removeEntry c l)) ∧
  (∀ ls l, lru c = ls ++ [l] → evictLRU c = removeEntry c l).
Proof.
  intros HI. split; [|split; [|split; [|split]]].
  - pose proof (run_Inv c op HI) as HI'.
    split; [done|]. split; [|split; [|split]].
    + intros k. by apply elem_of_lru_keys.
    + by apply NoDup_lru_keys.
    + by apply index_size_list.
    + rewrite (index_size_list _ HI'). apply (inv_size _ HI').
  - intros l Hin.
    destruct (removeEntry_node c HI l Hin) as (e & He & Hk & Hrm).
    pose proof (removeEntry_Inv c HI l Hin) as HI'.
    rewrite (key_at_entry c l e He).
    assert (Hlen : S (length (lru (removeEntry c l))) = length (lru c)).
    { rewrite Hrm. simpl. apply length_Remove; [apply (inv_nodup c HI)|done]. }
    assert (Hsz : S (size (data (removeEntry c l))) = size (data c)).
    { by rewrite (index_size_list _ HI'), (index_size_list c HI). }
    rewrite Hrm in *. simpl in *.
    split; [done|]. split; [done|]. split; [done|].
    split; [rewrite elem_of_Remove; by intros [_ ?]|]. done.
  - intros k l e t t' n Hk He Hexp. split.
    + unfold Get. by rewrite Hk, He, Hexp.
    + by apply (Cleanup_step_expired c n k t l e).
  - intros k l Hk. unfold Delete. by rewrite Hk.
  - intros ls l Hl. unfold evictLRU. by rewrite Hl, Back_snoc.
Qed.

Lemma sample_Inv : Inv sample.
Proof. unfold sample. do 2 apply Set_Inv. apply NewCache_Inv. Qed.

Lemma sample_Reachable : Reachable 2 sample.
Proof.
  unfold sample.
  apply (reach_step 2 _ (OpSet "b" ["y"%byte] (Some 10) 5 5 5)); [|done].
  apply (reach_step 2 _ (OpSet "a" ["x"%byte] None 1 1 1)); [|done].
  apply reach_new.
Qed.

Lemma operations_preserve_index_list_invariant_witness :
  Inv sample ∧
  Inv (run sample (OpCleanup [("a", 20); ("b", 20)])) ∧
  lru (run sample (OpCleanup [("a", 20); ("b", 20)])) = [0%nat] ∧
  Delete sample "b" = (true, removeEntry sample 1%nat).
Proof.
  split; [apply sample_Inv|].
  destruct (operations_preserve_index_list_invariant
              sample (OpCleanup [("a", 20); ("b", 20)]) sample_Inv)
    as ((HI & _) & _ & _ & Hdel & _).
  split; [exact HI|]. split; [vm_compute; reflexivity|].
  apply Hdel. vm_compute. reflexivity.
Defined.

(** ** C2: [Set] returns with the cache within its capacity *)

(** C2. On a cache built with a capacity [n ≥ 0], every call of [Set]
    returns with at most [n] entries: the index, the recency list and
    [currentSize] are all at most [n], the guard of the eviction loop is
    false on return (the loop ran to its exit), and what the loop removed
    was taken from the back of the list as it stood after the insertion. *)
Theorem Set_leaves_cache_within_capacity
    (n : Z) (c : Cache) (key : string) (value : list byte) (ttl : option Z)
    (t_created t_accessed t_expiry : Z) :
  0 ≤ n → Reachable n c →
  let c2 := Set_insert c key value ttl t_created t_accessed t_expiry in
  let c' := Set_ c key value ttl t_created t_accessed t_expiry in
  Z.of_nat (size (data c')) ≤ n ∧
  Z.of_nat (length (lru c')) ≤ n ∧
  currentSize c' ≤ n ∧
  over_capacity c' = false ∧
  lru c' =
    take (length (lru c2)
          - Set_evictions c key value ttl t_created t_accessed t_expiry)
         (lru c2).
Proof.
  intros Hn Hr c2 c'.
  destruct (Reachable_Inv n c Hr) as (HI & Hmax & _).
  assert (HI2 : Inv c2) by by apply Set_insert_Inv.
  assert (HI' : Inv c') by by apply Set_Inv.
  assert (Hfit : over_capacity c' = false) by by apply Set_fits.
  assert (Hmax' : maxSize c' = n).
  { rewrite <- Hmax. apply (run_maxSize c (OpSet key value ttl t_created t_accessed t_expiry)). }
  assert (Hsz : currentSize c' ≤ n).
  { apply over_capacity_false in Hfit as [Hle|Hnil]; [lia|].
    rewrite (inv_size c' HI'), Hnil. simpl. lia. }
  rewrite (index_size_list c' HI'), <- (inv_size c' HI').
  repeat (split; [done|]).
  subst c' c2. unfold Set_, Set_evictions. by apply evict_loop_prefix.
Qed.

Lemma Set_leaves_cache_within_capacity_witness :
  0 ≤ 2 ∧ Reachable 2 sample ∧
  Z.of_nat (size (data (Set_ sample "c" [] None 7 7 7))) ≤ 2 ∧
  lru (Set_ sample "c" [] None 7 7 7) = [2%nat; 1%nat].
Proof.
  split; [lia|]. split; [apply sample_Reachable|].
  destruct (Set_leaves_cache_within_capacity
              2 sample "c" [] None 7 7 7 ltac:(lia) sample_Reachable)
    as (Hsz & _ & _ & _ & Hlru).
  split; [exact Hsz|]. rewrite Hlru. vm_compute. reflexivity.
Defined.

(** ** C3: lazy expiration in [Get] *)

(** C3. When the entry of [k] has a deadline that has passed at the clock
    reading of the call ([ExpiresAt e = Some d] with [d < t_check]), [Get]
    reports not-found and the entry is gone from the index and from the
    recency list on return, whatever [Cleanup] did or did not do before;
    and whenever [Get] does return a value, it is the value of an entry that
    was not expired at that reading. *)
Theorem Get_expired_is_not_found
    (c : Cache) (k : string) (l : loc) (e : CacheEntry) (d t_check t_access : Z) :
  Inv c → data c !! k = Some l → objs c !! l = Some e →
  ExpiresAt e = Some d → d < t_check →
  Get c k t_check t_access = (None, removeEntry c l) ∧
  data (Get c k t_check t_access).2 !! k = None ∧
  (l ∉ lru (Get c k t_check t_access).2) ∧
  (k ∉ lru_keys (Get c k t_check t_access).2) ∧
  currentSize (Get c k t_check t_access).2 = currentSize c - 1 ∧
  (∀ c0 k0 ta tb v, (Get c0 k0 ta tb).1 = Some v →
     ∃ l0 e0, data c0 !! k0 = Some l0 ∧ objs c0 !! l0 = Some e0 ∧
              is_expired e0 ta = false ∧ v = Value e0).
Proof.
  intros HI Hk He Hd Hlt.
  assert (Hexp : is_expired e t_check = true).
  { unfold is_expired. rewrite Hd. by apply Z.ltb_lt. }
  assert (HG : Get c k t_check t_access = (None, removeEntry c l)).
  { unfold Get. by rewrite Hk, He, Hexp. }
  rewrite HG. simpl.
  assert (Hin : l ∈ lru c) by by apply (inv_index c HI k).
  pose proof (removeEntry_Inv c HI l Hin) as HI'.
  assert (Hgone : data (removeEntry c l) !! k = None).
  { rewrite (removeEntry_indexed c HI k l Hk). simpl. apply lookup_delete_eq. }
  split; [done|]. split; [done|]. split; [|split; [|split]].
  - rewrite (removeEntry_indexed c HI k l Hk). simpl.
    rewrite elem_of_Remove. by intros [_ ?].
  - rewrite (elem_of_lru_keys _ HI'), Hgone. by intros [? ?].
  - by rewrite (removeEntry_indexed c HI k l Hk).
  - intros c0 k0 ta tb v. unfold Get.
    destruct (data c0 !! k0) as [l0|] eqn:Hk0; [|done].
    destruct (objs c0 !! l0) as [e0|] eqn:He0; [|done].
    destruct (is_expired e0 ta) eqn:Hx; [done|].
    simpl. intros [= <-]. exists l0, e0. auto.
Qed.

Lemma Get_expired_is_not_found_witness :
  Inv sample ∧ data sample !! "b" = Some 1%nat ∧
  15 < 16 ∧
  Get sample "b" 16 16 = (None, removeEntry sample 1%nat) ∧
  data (Get sample "b" 16 16).2 !! "b" = None.
Proof.
  split; [apply sample_Inv|]. split; [vm_compute; reflexivity|].
  split; [lia|].
  destruct (Get_expired_is_not_found sample "b" 1%nat
              (mkEntry "b" ["y"%byte] (Some 15) 5 0 5 1%nat) 15 16 16)
    as (HG & Hgone & _).
  - apply sample_Inv.
  - vm_compute. reflexivity.
  - vm_compute. reflexivity.
  - reflexivity.
  - lia.
  - split; [exact HG|exact Hgone].
Defined.

(** ** C7: [Delete] *)

(** C7. [Delete(k)] never looks at the deadline.  When an entry for [k] is
    physically present, expired or not, it returns [true], the entry leaves
    the index and the recency list, and a second [Delete(k)] returns [false];
    when none is present it returns [false] and the state is the one it
    was given. *)
Theorem Delete_removes_present_entry (c : Cache) (k : string) :
  Inv c →
  (∀ l, data c !! k = Some l →
     Delete c k = (true, removeEntry c l) ∧
     data (Delete c k).2 !! k = None ∧
     (l ∉ lru (Delete c k).2) ∧
     (k ∉ lru_keys (Delete c k).2) ∧
     currentSize (Delete c k).2 = currentSize c - 1 ∧
     Delete (Delete c k).2 k = (false, (Delete c k).2)) ∧
  (data c !! k = None → Delete c k = (false, c)).
Proof.
  intros HI. split.
  - intros l Hk.
    assert (HD : Delete c k = (true, removeEntry c l)) by (unfold Delete; by rewrite Hk).
    rewrite HD. simpl.
    assert (Hin : l ∈ lru c) by by apply (inv_index c HI k).
    pose proof (removeEntry_Inv c HI l Hin) as HI'.
    assert (Hgone : data (removeEntry c l) !! k = None).
    { rewrite (removeEntry_indexed c HI k l Hk). simpl. apply lookup_delete_eq. }
    split; [done|]. split; [done|]. split; [|split; [|split]].
    + rewrite (removeEntry_indexed c HI k l Hk). simpl.
      rewrite elem_of_Remove. by intros [_ ?].
    + rewrite (elem_of_lru_keys _ HI'), Hgone. by intros [? ?].
    + by rewrite (removeEntry_indexed c HI k l Hk).
    + unfold Delete. by rewrite Hgone.
  - intros Hk. unfold Delete. by rewrite Hk.
Qed.

Lemma Delete_removes_present_entry_witness :
  Inv sample ∧
  Delete sample "b" = (true, removeEntry sample 1%nat) ∧
  Delete (Delete sample "b").2 "b" = (false, (Delete sample "b").2) ∧
  is_expired (mkEntry "b" ["y"%byte] (Some 15) 5 0 5 1%nat) 16 = true.
Proof.
  split; [apply sample_Inv|].
  destruct (Delete_removes_present_entry sample "b" sample_Inv) as [Hpresent _].
  destruct (Hpresent 1%nat) as (HD & _ & _ & _ & _ & Htwice).
  { vm_compute. reflexivity. }
  split; [exact HD|]. split; [exact Htwice|reflexivity].
Defined.

(** ** C8: construction with capacity zero *)

(** C8, as the code has it.  [NewCache] accepts every capacity, zero and
    negative ones included: its only outcome is the freshly made empty
    cache with [maxSize] set to the argument, and that cache satisfies the
    invariant.  No capacity yields a configuration error. *)
Theorem NewCache_accepts_every_capacity (n : Z) :
  NewCache_outcome n = Returned (NewCache n) ∧
  (∀ msg, NewCache_outcome n ≠ ConfigError msg) ∧
  maxSize (NewCache n) = n ∧
  data (NewCache n) = ∅ ∧ lru (NewCache n) = [] ∧ currentSize (NewCache n) = 0 ∧
  Inv (NewCache n) ∧ Reachable n (NewCache n).
Proof.
  split; [done|]. split; [done|]. repeat (split; [done|]).
  split; [apply NewCache_Inv|apply reach_new].
Qed.

(** C8, as the claim states it, fails: [NewCache(0)] is not rejected. *)
Lemma NewCache_zero_not_rejected :
  ¬ (∃ msg, NewCache_outcome 0 = ConfigError msg) ∧
  NewCache_outcome 0 = Returned (mkCache ∅ 0%nat ∅ [] 0 0).
Proof. split; [by intros [msg ?]|done]. Qed.

(** ** C10: a cache of capacity zero *)

(** C10. On a cache built by [NewCache(0)], whatever was called before, the
    cache is empty, and every [Set] returns with it empty again: the loop
    runs exactly once and evicts the entry [Set] has just inserted, so the
    index and the list are empty, [currentSize] is 0, and a [Get] of the
    same key right after reports not-found and changes nothing. *)
Theorem zero_capacity_cache_retains_nothing
    (c : Cache) (key : string) (value : list byte) (ttl : option Z)
    (t_created t_accessed t_expiry : Z) :
  Reachable 0 c →
  (data c = ∅ ∧ lru c = []) ∧
  lru (Set_insert c key value ttl t_created t_accessed t_expiry) = [next_loc c] ∧
  Set_evictions c key value ttl t_created t_accessed t_expiry = 1%nat ∧
  data (Set_ c key value ttl t_created t_accessed t_expiry) = ∅ ∧
  lru (Set_ c key value ttl t_created t_accessed t_expiry) = [] ∧
  currentSize (Set_ c key value ttl t_created t_accessed t_expiry) = 0 ∧
  (∀ k t_check t_access,
     Get (Set_ c key value ttl t_created t_accessed t_expiry) k t_check t_access
     = (None, Set_ c key value ttl t_created t_accessed t_expiry)).
Proof.
  intros Hr.
  destruct (Reachable_no_room 0 c ltac:(lia) Hr) as [Hnil Hempty].
  destruct (Reachable_Inv 0 c Hr) as (HI & Hmax & _).
  set (op := OpSet key value ttl t_created t_accessed t_expiry).
  assert (Hr' : Reachable 0 (run c op)) by by apply reach_step.
  destruct (Reachable_no_room 0 _ ltac:(lia) Hr') as [Hnil' Hempty'].
  destruct (Reachable_Inv 0 _ Hr') as (HI' & _ & _).
  simpl in Hnil', Hempty', HI'.
  assert (Hins : lru (Set_insert c key value ttl t_created t_accessed t_expiry)
                 = [next_loc c]).
  { unfold Set_insert. by rewrite Hempty, lookup_empty, Hnil. }
  split; [done|]. split; [done|]. split.
  { unfold Set_evictions. rewrite Hins. simpl length.
    eapply evict_loop_once.
    - by apply Set_insert_Inv.
    - unfold Set_insert. rewrite Hempty, lookup_empty. simpl.
      rewrite (inv_size c HI), Hnil, Hmax. done.
    - by rewrite Hins. }
  split; [done|]. split; [done|]. split.
  { by rewrite (inv_size _ HI'), Hnil'. }
  intros k t_check t_access. unfold Get. by rewrite Hempty', lookup_empty.
Qed.

Lemma zero_capacity_cache_retains_nothing_witness :
  Reachable 0 (NewCache 0) ∧
  data (Set_ (NewCache 0) "k" ["v"%byte] None 1 1 1) = ∅ ∧
  Get (Set_ (NewCache 0) "k" ["v"%byte] None 1 1 1) "k" 2 2
  = (None, Set_ (NewCache 0) "k" ["v"%byte] None 1 1 1).
Proof.
  split; [apply reach_new|].
  destruct (zero_capacity_cache_retains_nothing
              (NewCache 0) "k" ["v"%byte] None 1 1 1 (reach_new 0))
    as (_ & _ & _ & Hdata & _ & _ & HGet).
  split; [exact Hdata|apply HGet].
Defined.

(** ** C6: [Cleanup] *)

(** C6. [Cleanup], iterating over the keys of the index, each examined at
    its own clock reading: an entry whose deadline has passed at the
    reading taken for it is removed from the index and from the recency
    list; every other entry (deadline not passed, or no deadline) keeps its
    key, its node and its contents; nothing is added and the order of the
    remaining nodes is unchanged; and the result is the number of entries
    removed. *)
Theorem Cleanup_removes_exactly_the_expired
    (c : Cache) (visits : list (string * Z)) :
  Inv c → range_of c visits →
  (∀ k t l e, (k, t) ∈ visits → data c !! k = Some l → objs c !! l = Some e →
     (is_expired e t = true →
        data (Cleanup c visits).2 !! k = None ∧ (l ∉ lru (Cleanup c visits).2)) ∧
     (is_expired e t = false →
        data (Cleanup c visits).2 !! k = Some l ∧ l ∈ lru (Cleanup c visits).2 ∧
        objs (Cleanup c visits).2 !! l = Some e)) ∧
  (∀ k l, data (Cleanup c visits).2 !! k = Some l → data c !! k = Some l) ∧
  sublist (lru (Cleanup c visits).2) (lru c) ∧
  objs (Cleanup c visits).2 = objs c ∧
  (Cleanup c visits).1
    = Z.of_nat (size (data c)) - Z.of_nat (size (data (Cleanup c visits).2)) ∧
  currentSize (Cleanup c visits).2 = currentSize c - (Cleanup c visits).1 ∧
  Inv (Cleanup c visits).2.
Proof.
  intros HI [Hnd Hrange].
  destruct (Cleanup_fold visits 0 c HI) as (HI' & Hobjs & _ & Hsub & Hcnt & Hmem).
  fold (Cleanup c visits) in *. set (r := Cleanup c visits) in *.
  assert (Hkey : ∀ l, key_at r.2 l = key_at c l).
  { intros l. unfold key_at. by rewrite Hobjs. }
  assert (Hone : ∀ k t t', (k, t) ∈ visits → (k, t') ∈ visits → t = t').
  { intros k t t'. by apply NoDup_fst_unique. }
  split; [|split; [|split; [|split; [|split; [|split]]]]]; try done.
  - intros k t l e Hv Hk He.
    destruct (inv_index c HI k l Hk) as (Hin & e' & He' & Hke).
    rewrite He in He'. injection He' as <-.
    assert (Hkl : key_at c l = k) by by rewrite (key_at_entry c l e He).
    split.
    + intros Hexp.
      assert (Hnin : l ∉ lru r.2).
      { rewrite Hmem. intros [_ Hall].
        specialize (Hall e t He). rewrite Hke in Hall.
        rewrite (Hall Hv) in Hexp. discriminate. }
      split; [|done].
      destruct (data r.2 !! k) as [l'|] eqn:Hk'; [|done].
      apply (index_iff_node _ HI') in Hk' as [Hin' Hkl'].
      rewrite Hkey in Hkl'. pose proof (proj1 (Hmem l') Hin') as [Hinc _].
      assert (l' = l) as -> by (apply (key_at_inj c HI); congruence).
      done.
    + intros Hexp.
      assert (Hin' : l ∈ lru r.2).
      { apply Hmem. split; [done|]. intros e' t' He'.
        rewrite He in He'. injection He' as <-. rewrite Hke.
        intros Hv'. by rewrite (Hone k t' t Hv' Hv). }
      split; [|split; [done|by rewrite Hobjs]].
      apply (index_iff_node _ HI'). split; [done|]. by rewrite Hkey.
  - intros k l Hk.
    apply (index_iff_node _ HI') in Hk as [Hin Hkl]. rewrite Hkey in Hkl.
    apply Hmem in Hin as [Hin _]. by apply (index_iff_node c HI).
  - rewrite Hcnt, (index_size_list c HI), (index_size_list _ HI'). lia.
  - rewrite Hcnt, (inv_size c HI), (inv_size _ HI'). lia.
Qed.

Lemma sample_lru_keys : lru_keys sample = ["b"; "a"].
Proof. vm_compute. reflexivity. Qed.

Lemma sample_range : range_of sample [("a", 20); ("b", 21)].
Proof.
  split; csimpl.
  - apply NoDup_cons. split; [|apply NoDup_singleton].
    rewrite list_elem_of_singleton. discriminate.
  - intros k. rewrite <- (elem_of_lru_keys _ sample_Inv), sample_lru_keys.
    rewrite !elem_of_cons, !elem_of_nil. tauto.
Qed.

Lemma Cleanup_removes_exactly_the_expired_witness :
  Inv sample ∧ range_of sample [("a", 20); ("b", 21)] ∧
  Cleanup sample [("a", 20); ("b", 21)]
  = (1, removeEntry sample 1%nat) ∧
  sublist (lru (Cleanup sample [("a", 20); ("b", 21)]).2) (lru sample).
Proof.
  split; [apply sample_Inv|]. split; [apply sample_range|].
  split; [vm_compute; reflexivity|].
  apply (Cleanup_removes_exactly_the_expired
           sample [("a", 20); ("b", 21)] sample_Inv sample_range).
Defined.

(** ** The hit rate of [Stats], before rounding *)

Section hit_rate.

Lemma wrap64_small z : - 2 ^ 63 ≤ z < 2 ^ 63 → wrap64 z = z.
Proof. intros Hz. unfold wrap64. rewrite Z.mod_small; lia. Qed.

Lemma sum_accesses_nonneg es :
  Forall (λ e, 0 ≤ AccessCount e) es → 0 ≤ sum_accesses es.
Proof. induction 1; simpl; lia. Qed.

Lemma ever_read_le es : (ever_read es ≤ length es)%nat.
Proof. apply length_filter. Qed.

(** Without overflow the wrapping sum of the loop is the sum. *)
Lemma totalRequests_exact es : ∀ a,
  0 ≤ a → Forall (λ e, 0 ≤ AccessCount e) es →
  a + sum_accesses es < 2 ^ 63 →
  foldl (λ acc e, wrap64 (acc + AccessCount e)) a es = a + sum_accesses es.
Proof.
  induction es as [|e es IH]; intros a Ha Hall Hlt; simpl in *; [lia|].
  apply Forall_cons in Hall as [He Hall].
  pose proof (sum_accesses_nonneg es Hall).
  rewrite wrap64_small by lia. rewrite IH by (done || lia). lia.
Qed.

Lemma totalHits_exact es : ∀ a,
  0 ≤ a → a + Z.of_nat (length es) < 2 ^ 63 →
  foldl (λ acc e, if 0 <? AccessCount e then wrap64 (acc + 1) else acc) a es
  = a + Z.of_nat (ever_read es).
Proof.
  unfold ever_read.
  induction es as [|e es IH]; intros a Ha Hlt; simpl in *; [lia|].
  pose proof (ever_read_le es) as Hle. unfold ever_read in Hle.
  destruct (0 <? AccessCount e) eqn:Hpos.
  - apply Z.ltb_lt in Hpos. rewrite filter_cons_True by done.
    rewrite wrap64_small by lia. rewrite IH by lia. simpl length. lia.
  - apply Z.ltb_ge in Hpos. rewrite filter_cons_False by lia.
    rewrite IH by lia. done.
Qed.

Lemma sum_zero_none_read es :
  Forall (λ e, 0 ≤ AccessCount e) es → sum_accesses es = 0 → ever_read es = 0%nat.
Proof.
  unfold ever_read. induction 1 as [|e es He Hall IH]; simpl; [done|].
  pose proof (sum_accesses_nonneg es Hall). intros Hsum.
  rewrite filter_cons_False by lia. apply IH. lia.
Qed.

(** With or without overflow the two counters are sums modulo [2^64], and
    so is every order of iteration as good as any other. *)
Lemma wrap64_add_l u v : wrap64 (wrap64 u + v) = wrap64 (u + v).
Proof.
  unfold wrap64. f_equal.
  replace ((u + 2 ^ 63) mod 2 ^ 64 - 2 ^ 63 + v + 2 ^ 63)
    with ((u + 2 ^ 63) mod 2 ^ 64 + v) by lia.
  rewrite Zplus_mod_idemp_l. f_equal. lia.
Qed.

Lemma totalRequests_closed es :
  totalRequests_over es = wrap64 (sum_accesses es).
Proof.
  unfold totalRequests_over.
  assert (∀ a, foldl (λ acc e, wrap64 (acc + AccessCount e)) (wrap64 a) es
               = wrap64 (a + sum_accesses es)) as Hgen.
  { induction es as [|e es IH]; intros a; simpl; [f_equal; lia|].
    rewrite wrap64_add_l, IH. f_equal. lia. }
  apply (Hgen 0).
Qed.

Lemma totalHits_closed es :
  totalHits_over es = wrap64 (Z.of_nat (ever_read es)).
Proof.
  unfold totalHits_over, ever_read.
  assert (∀ a, foldl (λ acc e, if 0 <? AccessCount e then wrap64 (acc + 1) else acc)
                     (wrap64 a) es
               = wrap64 (a + Z.of_nat (length (filter (λ e, 0 < AccessCount e) es))))
    as Hgen.
  { induction es as [|e es IH]; intros a; simpl; [f_equal; lia|].
    destruct (0 <? AccessCount e) eqn:Hpos.
    - apply Z.ltb_lt in Hpos. rewrite filter_cons_True by done.
      rewrite wrap64_add_l, IH. f_equal. simpl length. lia.
    - apply Z.ltb_ge in Hpos. rewrite filter_cons_False by lia. apply IH. }
  apply (Hgen 0).
Qed.

Lemma hit_rate_over_Permutation es es' keys :
  es ≡ₚ es' → hit_rate_over es keys = hit_rate_over es' keys.
Proof.
  intros Hp. unfold hit_rate_over.
  rewrite !totalRequests_closed, !totalHits_closed.
  assert (sum_accesses es = sum_accesses es') as ->.
  { induction Hp; simpl; lia. }
  assert (ever_read es = ever_read es') as ->; [|done].
  unfold ever_read. by rewrite Hp.
Qed.

Lemma length_omap_total {A B} (f : A → option B) (l : list A) :
  (∀ x, x ∈ l → is_Some (f x)) → length (omap f l) = length l.
Proof.
  induction l as [|x l IH]; intros Hall; simpl; [done|].
  destruct (Hall x) as [y ->]; [by left|]. simpl. f_equal.
  apply IH. intros ??. apply Hall. by right.
Qed.

(** Under the invariant [range c.data] meets one entry per key. *)
Lemma length_resident c : Inv c → length (resident c) = size (data c).
Proof.
  intros HI. unfold resident. rewrite length_omap_total, length_map_to_list; [done|].
  intros [k l]. rewrite elem_of_map_to_list. intros Hk. simpl.
  destruct (inv_index c HI k l Hk) as (_ & e & -> & _). by eexists.
Qed.

End hit_rate.

(** The quotient before it is rounded.  With no counter overflow, the
    exact quotient of the two operands of the division is the number of
    resident entries with [AccessCount > 0] divided by the number of
    resident entries (0 for an empty cache); the entries counted are the
    resident ones, one per key of the index.  What [calculateHitRate]
    returns is the [float64] quotient of the same operands
    ([calculateHitRate64]). *)
Theorem hit_rate_is_fraction_of_resident_keys_read (c : Cache) :
  Inv c → counters_in_range c →
  length (resident c) = size (data c) ∧
  (hit_rate (Stats c)
   == inject_Z (Z.of_nat (ever_read (resident c)))
      / inject_Z (Z.of_nat (size (data c))))%Q ∧
  (data c = ∅ → hit_rate (Stats c) = 0%Q).
Proof.
  intros HI (Hall & Hsum & Hsize).
  pose proof (length_resident c HI) as Hlen.
  split; [done|]. simpl.
  unfold calculateHitRate, hit_rate_over, totalRequests_over, totalHits_over.
  rewrite totalRequests_exact by (done || lia).
  rewrite totalHits_exact by (rewrite ?Hlen; lia).
  rewrite !Z.add_0_l. split.
  - destruct (sum_accesses (resident c) =? 0) eqn:Hz; [|reflexivity].
    apply Z.eqb_eq in Hz. rewrite (sum_zero_none_read _ Hall Hz).
    unfold Qdiv. by rewrite Qmult_0_l.
  - intros Hempty. unfold resident. by rewrite Hempty, map_to_list_empty.
Qed.

Lemma sample_read_Inv : Inv sample_read.
Proof. apply Get_Inv, sample_Inv. Qed.

Lemma sample_read_counters : counters_in_range sample_read.
Proof.
  split; [|split].
  - apply Forall_forall. intros e. vm_compute resident.
    rewrite !elem_of_cons, elem_of_nil. intros [->|[->|[]]]; simpl; lia.
  - vm_compute. reflexivity.
  - vm_compute. reflexivity.
Qed.

Lemma hit_rate_is_fraction_of_resident_keys_read_witness :
  Inv sample_read ∧ counters_in_range sample_read ∧
  (hit_rate (Stats sample_read) == 1 # 2)%Q.
Proof.
  split; [apply sample_read_Inv|]. split; [apply sample_read_counters|].
  destruct (hit_rate_is_fraction_of_resident_keys_read
              sample_read sample_read_Inv sample_read_counters) as (_ & Hrate & _).
  rewrite Hrate. vm_compute. reflexivity.
Defined.

(** Three hits and one miss on a single resident key: the [hit_rate] is 1,
    the fraction of resident keys that were read, not 3/4. *)
Example hit_rate_ignores_misses :
  let c0 := Set_ (NewCache 2) "a" ["x"%byte] None 1 1 1 in
  let c1 := (Get c0 "a" 2 2).2 in
  let c2 := (Get c1 "a" 3 3).2 in
  let c3 := (Get c2 "a" 4 4).2 in
  (Get c3 "zz" 5 5).1 = None ∧
  total_accesses (Stats (Get c3 "zz" 5 5).2) = 3 ∧
  hit_rate (Stats (Get c3 "zz" 5 5).2) = (1 # 1)%Q.
Proof. vm_compute. repeat split; reflexivity. Qed.

(** ** C4: least recently used goes first *)

Section insertion.
Variables (c : Cache) (key : string) (value : list byte) (ttl : option Z).
Variables (t_created t_accessed t_expiry : Z).
Hypothesis HI : Inv c.

Let entry : CacheEntry :=
  mkEntry key value ((λ d, t_expiry + d) <$> ttl) t_created 0 t_accessed (next_loc c).

(** Inserting a key that is not indexed. *)
Lemma Set_insert_fresh :
  data c !! key = None →
  Set_insert c key value ttl t_created t_accessed t_expiry =
    mkCache (<[next_loc c := entry]> (objs c)) (S (next_loc c))
            (<[key := next_loc c]> (data c)) (next_loc c :: lru c)
            (maxSize c) (currentSize c + 1).
Proof. intros Hk. unfold Set_insert. by rewrite Hk. Qed.

(** Replacing an indexed key: the old node is unlinked, the new one is
    pushed, the size is what it was. *)
Lemma Set_insert_present l :
  data c !! key = Some l →
  Set_insert c key value ttl t_created t_accessed t_expiry =
    mkCache (<[next_loc c := entry]> (objs c)) (S (next_loc c))
            (<[key := next_loc c]> (data c))
            (next_loc c :: List_.Remove l (lru c))
            (maxSize c) (currentSize c).
Proof.
  intros Hk. unfold Set_insert. rewrite Hk.
  rewrite (removeEntry_indexed c HI key l Hk). simpl.
  rewrite insert_delete_eq. f_equal. lia.
Qed.

Lemma next_loc_fresh : objs c !! next_loc c = None ∧ next_loc c ∉ lru c.
Proof.
  assert (Hnew : objs c !! next_loc c = None).
  { destruct (objs c !! next_loc c) as [e|] eqn:He; [|done].
    apply (inv_alloc c HI) in He as [? _]. lia. }
  split; [done|]. intros Hin.
  apply (inv_list c HI) in Hin as (e & He & _). congruence.
Qed.

(** The allocation leaves the keys of the old nodes alone. *)
Lemma key_at_after_insert c' l :
  objs c' = <[next_loc c := entry]> (objs c) →
  (key_at c' (next_loc c) = key) ∧ (l ∈ lru c → key_at c' l = key_at c l).
Proof.
  intros Hobjs. unfold key_at. rewrite Hobjs. split.
  - by rewrite lookup_insert_eq.
  - intros Hin. rewrite lookup_insert_ne; [done|].
    intros <-. by apply next_loc_fresh in Hin.
Qed.

Lemma key_at_fmap_after_insert c' ls :
  objs c' = <[next_loc c := entry]> (objs c) →
  ls ⊆ lru c → key_at c' <$> ls = key_at c <$> ls.
Proof.
  intros Hobjs Hsub. apply list_fmap_ext. intros i l Hl.
  apply (key_at_after_insert c' l Hobjs). apply Hsub.
  by apply list_elem_of_lookup_2 in Hl.
Qed.

(** A new key and room for it: nothing is evicted. *)
Lemma Set_fresh_room :
  data c !! key = None → currentSize c < maxSize c →
  Set_ c key value ttl t_created t_accessed t_expiry
  = Set_insert c key value ttl t_created t_accessed t_expiry ∧
  Set_evictions c key value ttl t_created t_accessed t_expiry = O ∧
  lru_keys (Set_ c key value ttl t_created t_accessed t_expiry)
  = key :: lru_keys c.
Proof.
  intros Hk Hroom. unfold Set_, Set_evictions.
  rewrite (Set_insert_fresh Hk).
  match goal with |- context [evict_loop ?f ?x] =>
    destruct (evict_loop_within f x) as [-> ->]; [simpl; lia|] end.
  split; [done|]. split; [done|]. unfold lru_keys. simpl.
  f_equal.
  - by apply (key_at_after_insert (mkCache _ _ _ _ _ _) (next_loc c)).
  - by apply key_at_fmap_after_insert.
Qed.

(** A new key and a full cache: the loop runs once and the key of the last
    node goes. *)
Lemma Set_fresh_full ks k0 :
  data c !! key = None → currentSize c = maxSize c →
  lru_keys c = ks ++ [k0] →
  Set_evictions c key value ttl t_created t_accessed t_expiry = 1%nat ∧
  lru_keys (Set_ c key value ttl t_created t_accessed t_expiry) = key :: ks ∧
  currentSize (Set_ c key value ttl t_created t_accessed t_expiry) = currentSize c.
Proof.
  intros Hk Hfull Hkeys. unfold lru_keys in Hkeys.
  apply fmap_app_inv in Hkeys as (ls & lx & Hks & Hk0 & Hlru).
  destruct lx as [|x [|? ?]]; try done. injection Hk0 as Hk0.
  pose proof (Set_insert_Inv c key value ttl t_created t_accessed t_expiry HI) as HI2.
  unfold Set_, Set_evictions. revert HI2.
  rewrite (Set_insert_fresh Hk). intros HI2. cbn [lru length].
  match goal with |- context [evict_loop ?f ?x] =>
    destruct (evict_loop_once (length (lru c)) x HI2) as [-> ->];
      [simpl; lia|done|] end.
  split; [done|].
  rewrite (evictLRU_back _ (next_loc c :: ls) x HI2) by (simpl; by rewrite Hlru).
  unfold lru_keys. simpl. split; [|lia]. f_equal.
  - by apply (key_at_after_insert (mkCache _ _ _ _ _ _) (next_loc c)).
  - rewrite Hks. apply key_at_fmap_after_insert; [done|].
    rewrite Hlru. set_solver.
Qed.

End insertion.

Lemma do_set_maxSize c a : maxSize (do_set c a) = maxSize c.
Proof.
  apply (run_maxSize c (OpSet (sc_key a) (sc_value a) None (sc_created a) (sc_accessed a) 0)).
Qed.

Lemma set_all_snoc c calls a :
  set_all c (calls ++ [a]) = do_set (set_all c calls) a.
Proof. apply foldl_snoc. Qed.

Lemma evictions_all_snoc calls : ∀ c a,
  evictions_all c (calls ++ [a])
  = (evictions_all c calls
     + Set_evictions (set_all c calls) (sc_key a) (sc_value a) None
                     (sc_created a) (sc_accessed a) 0)%nat.
Proof.
  induction calls as [|b calls IH]; intros c a; simpl; [lia|].
  rewrite IH. unfold set_all. simpl. lia.
Qed.

(** While there is room, distinct new keys pile up at the front and none
    is evicted. *)
Lemma set_all_room calls : ∀ c,
  Inv c → NoDup (sc_key <$> calls) →
  (∀ a, a ∈ calls → data c !! sc_key a = None) →
  currentSize c + Z.of_nat (length calls) ≤ maxSize c →
  Inv (set_all c calls) ∧
  lru_keys (set_all c calls) = reverse (sc_key <$> calls) ++ lru_keys c ∧
  evictions_all c calls = O ∧
  currentSize (set_all c calls) = currentSize c + Z.of_nat (length calls).
Proof.
  induction calls as [|a calls IH]; intros c HI Hnd Hfresh Hroom.
  { simpl. split; [done|]. split; [done|]. split; [done|lia]. }
  rewrite fmap_cons in Hnd. apply NoDup_cons in Hnd as [Hnin Hnd].
  simpl length in Hroom.
  assert (Hk : data c !! sc_key a = None) by (apply Hfresh; by left).
  destruct (Set_fresh_room c (sc_key a) (sc_value a) None (sc_created a)
              (sc_accessed a) 0 HI Hk ltac:(lia)) as (Heq & Hev & Hkeys).
  fold (do_set c a) in Heq, Hkeys.
  assert (HI1 : Inv (do_set c a)) by by apply Set_Inv.
  assert (Hsz1 : currentSize (do_set c a) = currentSize c + 1).
  { rewrite Heq, (Set_insert_fresh c _ _ _ _ _ _ Hk). done. }
  destruct (IH (do_set c a) HI1 Hnd) as (HI' & Hkeys' & Hev' & Hsz').
  - intros b Hb.
    destruct (data (do_set c a) !! sc_key b) as [l|] eqn:Hkb; [|done].
    apply mk_is_Some, (elem_of_lru_keys _ HI1) in Hkb.
    rewrite Hkeys, elem_of_cons, (elem_of_lru_keys c HI) in Hkb.
    destruct Hkb as [Heqk|Hin].
    + destruct Hnin. rewrite <- Heqk. apply list_elem_of_fmap. eauto.
    + rewrite Hfresh in Hin by by right. by destruct Hin.
  - rewrite do_set_maxSize, Hsz1. lia.
  - simpl. fold (do_set c a). split; [done|]. split; [|split].
    + rewrite Hkeys', Hkeys, reverse_cons, <- app_assoc. done.
    + rewrite Hev, Hev'. done.
    + rewrite Hsz', Hsz1. simpl length. lia.
Qed.

(** C4. Capacity [N ≥ 1], an empty cache, [N + 1] calls of [Set] with
    distinct keys and no TTL, nothing in between: the first [N] calls evict
    nothing and leave all [N] keys resident, the last call evicts once, and
    the key that is gone is the first one inserted; all the others are
    resident, most recent first.  In general the loop of [Set] only ever
    removes the node at the back of the recency list: [evictLRU] removes
    the last node, and what [Set] leaves is a prefix of the list as it stood
    after the insertion. *)
Theorem LRU_evicts_first_inserted
    (N : nat) (first : SetCall) (rest : list SetCall) :
  (1 ≤ N)%nat → length rest = N → NoDup (sc_key <$> first :: rest) →
  evictions_all (NewCache (Z.of_nat N)) (take N (first :: rest)) = O ∧
  lru_keys (set_all (NewCache (Z.of_nat N)) (take N (first :: rest)))
  = reverse (sc_key <$> take N (first :: rest)) ∧
  evictions_all (NewCache (Z.of_nat N)) (first :: rest) = 1%nat ∧
  data (set_all (NewCache (Z.of_nat N)) (first :: rest)) !! sc_key first = None ∧
  (∀ a, a ∈ rest →
     is_Some (data (set_all (NewCache (Z.of_nat N)) (first :: rest)) !! sc_key a)) ∧
  lru_keys (set_all (NewCache (Z.of_nat N)) (first :: rest))
  = reverse (sc_key <$> rest) ∧
  size (data (set_all (NewCache (Z.of_nat N)) (first :: rest))) = N ∧
  (∀ c ls l, Inv c → lru c = ls ++ [l] →
     evictLRU c = removeEntry c l ∧ lru (evictLRU c) = ls ∧
     data (evictLRU c) = delete (key_at c l) (data c)) ∧
  (∀ c key value ttl t1 t2 t3, Inv c →
     lru (Set_ c key value ttl t1 t2 t3)
     = take (length (lru (Set_insert c key value ttl t1 t2 t3))
             - Set_evictions c key value ttl t1 t2 t3)
            (lru (Set_insert c key value ttl t1 t2 t3))).
Proof.
  intros HN Hlen Hnd.
  destruct rest as [|lst init _] using rev_ind; [simpl in Hlen; lia|].
  rewrite length_app in Hlen. simpl in Hlen.
  assert (Htake : take N (first :: init ++ [lst]) = first :: init).
  { rewrite app_comm_cons. rewrite take_app_length'; [done|]. simpl. lia. }
  rewrite Htake.
  set (c0 := NewCache (Z.of_nat N)).
  assert (Hnd1 : NoDup (sc_key <$> first :: init) ∧
                 sc_key lst ∉ sc_key <$> first :: init).
  { rewrite app_comm_cons, fmap_app in Hnd.
    apply NoDup_app in Hnd as (? & Hdis & _). split; [done|].
    intros Hin. apply (Hdis _ Hin). simpl. by left. }
  destruct Hnd1 as [Hnd1 Hlst].
  destruct (set_all_room (first :: init) c0 (NewCache_Inv _) Hnd1)
    as (HI1 & Hkeys1 & Hev1 & Hsz1).
  { intros a _. apply lookup_empty. }
  { simpl. lia. }
  assert (lru_keys c0 = []) as Hnil by done.
  rewrite Hnil, app_nil_r in Hkeys1.
  set (c1 := set_all c0 (first :: init)) in *.
  assert (Hfresh : data c1 !! sc_key lst = None).
  { destruct (data c1 !! sc_key lst) as [l|] eqn:Hk; [|done].
    apply mk_is_Some, (elem_of_lru_keys _ HI1) in Hk.
    rewrite Hkeys1, elem_of_reverse in Hk. done. }
  assert (Hfull : currentSize c1 = maxSize c1).
  { rewrite Hsz1. unfold c1, set_all.
    assert (∀ calls c, maxSize (foldl do_set c calls) = maxSize c) as ->.
    { induction calls as [|a calls IH]; intros c; simpl; [done|].
      by rewrite IH, do_set_maxSize. }
    simpl. lia. }
  assert (Hkeys1' : lru_keys c1 = reverse (sc_key <$> init) ++ [sc_key first]).
  { by rewrite Hkeys1, fmap_cons, reverse_cons. }
  destruct (Set_fresh_full c1 (sc_key lst) (sc_value lst) None (sc_created lst)
              (sc_accessed lst) 0 HI1 _ _ Hfresh Hfull Hkeys1')
    as (Hev2 & Hkeys2 & Hsz2).
  assert (Hall : set_all c0 (first :: init ++ [lst]) = do_set c1 lst).
  { rewrite app_comm_cons. apply set_all_snoc. }
  fold (do_set c1 lst) in Hkeys2, Hsz2. rewrite Hall.
  assert (HI2 : Inv (do_set c1 lst)) by by apply Set_Inv.
  assert (Hkeys2' : lru_keys (do_set c1 lst) = reverse (sc_key <$> init ++ [lst])).
  { by rewrite Hkeys2, fmap_app, reverse_app. }
  split; [done|]. split; [done|]. split.
  { rewrite app_comm_cons, evictions_all_snoc. fold c1. rewrite Hev1, Hev2. done. }
  split.
  { destruct (data (do_set c1 lst) !! sc_key first) as [l|] eqn:Hk; [|done].
    apply mk_is_Some, (elem_of_lru_keys _ HI2) in Hk.
    rewrite Hkeys2', elem_of_reverse in Hk.
    rewrite fmap_cons in Hnd. apply NoDup_cons in Hnd as [Hnin _]. done. }
  split.
  { intros a Ha. apply (elem_of_lru_keys _ HI2).
    rewrite Hkeys2', elem_of_reverse. apply list_elem_of_fmap. eauto. }
  split; [done|]. split.
  { rewrite (index_size_list _ HI2).
    transitivity (length (lru_keys (do_set c1 lst))).
    - unfold lru_keys. by rewrite length_fmap.
    - rewrite Hkeys2', length_reverse, length_fmap, length_app. simpl. lia. }
  split.
  - intros c ls l HI Hl. split.
    + unfold evictLRU. by rewrite Hl, Back_snoc.
    + by rewrite (evictLRU_back c ls l HI Hl).
  - intros c key value ttl t1 t2 t3 HI. unfold Set_, Set_evictions.
    apply evict_loop_prefix. by apply Set_insert_Inv.
Qed.

Lemma LRU_evicts_first_inserted_witness :
  (1 ≤ 2)%nat ∧
  NoDup (sc_key <$> [mkSetCall "a" [] 1 1; mkSetCall "b" [] 2 2; mkSetCall "c" [] 3 3]) ∧
  evictions_all (NewCache 2)
    [mkSetCall "a" [] 1 1; mkSetCall "b" [] 2 2; mkSetCall "c" [] 3 3] = 1%nat ∧
  data (set_all (NewCache 2)
    [mkSetCall "a" [] 1 1; mkSetCall "b" [] 2 2; mkSetCall "c" [] 3 3]) !! "a" = None ∧
  lru_keys (set_all (NewCache 2)
    [mkSetCall "a" [] 1 1; mkSetCall "b" [] 2 2; mkSetCall "c" [] 3 3]) = ["c"; "b"].
Proof.
  assert (Hnd : NoDup (sc_key <$> [mkSetCall "a" [] 1 1; mkSetCall "b" [] 2 2;
                                   mkSetCall "c" [] 3 3])).
  { apply (bool_decide_unpack _). vm_compute. reflexivity. }
  split; [lia|]. split; [exact Hnd|].
  destruct (LRU_evicts_first_inserted 2 (mkSetCall "a" [] 1 1)
              [mkSetCall "b" [] 2 2; mkSetCall "c" [] 3 3]
              ltac:(lia) eq_refl Hnd)
    as (_ & _ & Hev & Hgone & _ & Hkeys & _).
  split; [exact Hev|]. split; [exact Hgone|exact Hkeys].
Defined.

(** ** C5: overwriting a key *)

(** After [Set] on a cache with room for one entry the key is resident. *)
Lemma Set_present c key value ttl t1 t2 t3 :
  Inv c → over_capacity c = false → 1 ≤ maxSize c →
  is_Some (data (Set_ c key value ttl t1 t2 t3) !! key).
Proof.
  intros HI Hfit Hcap.
  pose proof (Set_Inv c key value ttl t1 t2 t3 HI) as HI'.
  apply (elem_of_lru_keys _ HI').
  assert (Hle : currentSize c ≤ maxSize c).
  { apply over_capacity_false in Hfit as [?|Hnil]; [done|].
    rewrite (inv_size c HI), Hnil. simpl. lia. }
  destruct (data c !! key) as [l|] eqn:Hk.
  - unfold Set_. rewrite (Set_insert_present c key value ttl t1 t2 t3 HI l Hk).
    match goal with |- context [evict_loop ?f ?x] =>
      destruct (evict_loop_within f x) as [-> _]; [done|] end.
    unfold lru_keys. simpl. unfold key_at at 1. simpl.
    rewrite lookup_insert_eq. by left.
  - destruct (decide (currentSize c < maxSize c)) as [Hroom|Hfull].
    + destruct (Set_fresh_room c key value ttl t1 t2 t3 HI Hk Hroom) as (_ & _ & ->).
      by left.
    + assert (currentSize c = maxSize c) as Heq by lia.
      destruct (lru_keys c) as [|k0 ks _] eqn:Hkeys using rev_ind.
      { pose proof (inv_size c HI) as Hsz. unfold lru_keys in Hkeys.
        apply fmap_nil_inv in Hkeys. rewrite Hkeys in Hsz. simpl in Hsz. lia. }
      destruct (Set_fresh_full c key value ttl t1 t2 t3 HI ks k0 Hk Heq Hkeys)
        as (_ & -> & _).
      by left.
Qed.

(** C5, as the code has it.  When [k] has an entry, [Set(k, v2, ttl2)]
    unlinks the old node and installs a newly allocated entry at the front
    of the recency list, indexed under [k], with value [v2], [AccessCount]
    0, [CreatedAt] the first clock reading of the call, [LastAccessed] the
    second, and [ExpiresAt] the third reading plus [ttl2], or nil when
    [ttl2] is nil; nothing is evicted and nothing of the old entry, its
    deadline included, is carried over.  A later [Get(k)] returns [v2]
    unless the new deadline has passed, so with [ttl2] nil it returns [v2] at
    every later instant; in particular on a cache of capacity at least 1,
    [Set(k, v1, ttl1)] then [Set(k, v2, nil)] then [Get(k)] returns [v2]. *)
Theorem Set_overwrite_installs_fresh_entry
    (n : Z) (c : Cache) (k : string) (l : loc) (v2 : list byte)
    (ttl2 : option Z) (t_created t_accessed t_expiry : Z) :
  Reachable n c → data c !! k = Some l →
  data (Set_ c k v2 ttl2 t_created t_accessed t_expiry) !! k = Some (next_loc c) ∧
  next_loc c ≠ l ∧
  lru (Set_ c k v2 ttl2 t_created t_accessed t_expiry)
  = next_loc c :: List_.Remove l (lru c) ∧
  (l ∉ lru (Set_ c k v2 ttl2 t_created t_accessed t_expiry)) ∧
  objs (Set_ c k v2 ttl2 t_created t_accessed t_expiry) !! next_loc c
  = Some (mkEntry k v2 ((λ d, t_expiry + d) <$> ttl2)
                  t_created 0 t_accessed (next_loc c)) ∧
  Set_evictions c k v2 ttl2 t_created t_accessed t_expiry = O ∧
  currentSize (Set_ c k v2 ttl2 t_created t_accessed t_expiry) = currentSize c ∧
  (∀ t_check t_access,
     (Get (Set_ c k v2 ttl2 t_created t_accessed t_expiry) k t_check t_access).1
     = match ttl2 with
       | Some d => if t_expiry + d <? t_check then None else Some v2
       | None => Some v2
       end) ∧
  (∀ c0 v1 ttl1 ta tb tc td te tf t_check t_access,
     Reachable n c0 → 1 ≤ n →
     (Get (Set_ (Set_ c0 k v1 ttl1 ta tb tc) k v2 None td te tf)
          k t_check t_access).1 = Some v2).
Proof.
  assert (Hmain : ∀ c l ttl2 t_created t_accessed t_expiry,
    Reachable n c → data c !! k = Some l →
    Set_ c k v2 ttl2 t_created t_accessed t_expiry
    = mkCache (<[next_loc c :=
                   mkEntry k v2 ((λ d, t_expiry + d) <$> ttl2)
                           t_created 0 t_accessed (next_loc c)]> (objs c))
              (S (next_loc c)) (<[k := next_loc c]> (data c))
              (next_loc c :: List_.Remove l (lru c))
              (maxSize c) (currentSize c) ∧
    Set_evictions c k v2 ttl2 t_created t_accessed t_expiry = O).
  { clear. intros c l ttl2 t_created t_accessed t_expiry Hr Hk.
    destruct (Reachable_Inv n c Hr) as (HI & _ & Hfit).
    assert (Hin : l ∈ lru c) by by apply (inv_index c HI k).
    assert (Hle : currentSize c ≤ maxSize c).
    { apply over_capacity_false in Hfit as [?|Hnil]; [done|].
      rewrite Hnil in Hin. by apply elem_of_nil in Hin. }
    unfold Set_, Set_evictions.
    rewrite (Set_insert_present c k v2 ttl2 _ _ _ HI l Hk).
    match goal with |- context [evict_loop ?f ?x] =>
      by destruct (evict_loop_within f x) as [-> ->] end. }
  assert (HGet : ∀ c l ttl2 t_created t_accessed t_expiry t_check t_access,
    Reachable n c → data c !! k = Some l →
    (Get (Set_ c k v2 ttl2 t_created t_accessed t_expiry) k t_check t_access).1
    = match ttl2 with
      | Some d => if t_expiry + d <? t_check then None else Some v2
      | None => Some v2
      end).
  { intros c1 l1 ttl t1 t2 t3 t_check t_access Hr1 Hk1.
    destruct (Hmain c1 l1 ttl t1 t2 t3 Hr1 Hk1) as [-> _].
    unfold Get. simpl. rewrite !lookup_insert_eq. unfold is_expired. simpl.
    destruct ttl as [d|]; simpl; [|done]. by destruct (t3 + d <? t_check). }
  intros Hr Hk. destruct (Hmain c l ttl2 t_created t_accessed t_expiry Hr Hk) as [Heq Hev].
  destruct (Reachable_Inv n c Hr) as (HI & _ & _).
  destruct (inv_index c HI k l Hk) as (Hin & _).
  destruct (next_loc_fresh c HI) as [_ Hfresh].
  split; [rewrite Heq; simpl; apply lookup_insert_eq|].
  split; [by intros <-|].
  split; [by rewrite Heq|].
  split.
  { rewrite Heq. simpl. rewrite elem_of_cons, elem_of_Remove.
    intros [->|[_ ?]]; done. }
  split; [rewrite Heq; simpl; apply lookup_insert_eq|].
  split; [done|]. split; [by rewrite Heq|]. split.
  - intros t_check t_access. by apply (HGet c l).
  - intros c0 v1 ttl1 ta tb tc td te tf t_check t_access Hr0 Hn.
    set (op := OpSet k v1 ttl1 ta tb tc).
    assert (Hr1 : Reachable n (run c0 op)) by by apply reach_step.
    destruct (Reachable_Inv n c0 Hr0) as (HI0 & Hmax0 & Hfit0).
    destruct (Set_present c0 k v1 ttl1 ta tb tc HI0 Hfit0 ltac:(lia)) as [l1 Hk1].
    by apply (HGet _ l1 None).
Qed.

Lemma Set_overwrite_installs_fresh_entry_witness :
  Reachable 2 sample ∧ data sample !! "b" = Some 1%nat ∧
  lru (Set_ sample "b" ["z"%byte] None 100 101 102) = [2%nat; 0%nat] ∧
  (∀ t_check t_access,
     (Get (Set_ sample "b" ["z"%byte] None 100 101 102) "b" t_check t_access).1
     = Some ["z"%byte]).
Proof.
  assert (Hk : data sample !! "b" = Some 1%nat) by (vm_compute; reflexivity).
  split; [apply sample_Reachable|]. split; [exact Hk|].
  destruct (Set_overwrite_installs_fresh_entry
              2 sample "b" 1%nat ["z"%byte] None 100 101 102 sample_Reachable Hk)
    as (_ & _ & Hlru & _ & _ & _ & _ & HGet & _).
  split; [rewrite Hlru; vm_compute; reflexivity|exact HGet].
Defined.

(** C5, as the claim states it, fails on the two timestamps: [CreatedAt]
    and [LastAccessed] come from two successive readings of the clock, here
    100 and 101, and differ. *)
Lemma Set_timestamps_are_separate_readings :
  data sample !! "b" = Some 1%nat ∧
  data (Set_ sample "b" ["z"%byte] None 100 101 102) !! "b" = Some 2%nat ∧
  objs (Set_ sample "b" ["z"%byte] None 100 101 102) !! 2%nat
  = Some (mkEntry "b" ["z"%byte] None 100 0 101 2%nat) ∧
  CreatedAt (mkEntry "b" ["z"%byte] None 100 0 101 2%nat)
  ≠ LastAccessed (mkEntry "b" ["z"%byte] None 100 0 101 2%nat).
Proof. vm_compute. repeat split; discriminate. Qed.

(** * Further properties of the cache engine *)

(** ** Auxiliary facts *)

Lemma removeEntry_next c l : next_loc (removeEntry c l) = next_loc c.
Proof. unfold removeEntry. by destruct (objs c !! l). Qed.

Lemma evictLRU_objs c : objs (evictLRU c) = objs c.
Proof.
  unfold evictLRU. destruct (List_.Back (lru c)); [|done]. apply removeEntry_objs.
Qed.

Lemma evict_loop_objs fuel c : objs (evict_loop fuel c) = objs c.
Proof.
  revert c. induction fuel as [|fuel IH]; intros c; simpl; [done|].
  destruct (over_capacity c); [|done]. by rewrite IH, evictLRU_objs.
Qed.

(** The store after [Set]: the old store and the new entry. *)
Lemma Set_objs c key value ttl t1 t2 t3 :
  objs (Set_ c key value ttl t1 t2 t3)
  = <[next_loc c := mkEntry key value ((λ d, t3 + d) <$> ttl) t1 0 t2 (next_loc c)]>
      (objs c).
Proof.
  unfold Set_. rewrite evict_loop_objs. unfold Set_insert. simpl.
  destruct (data c !! key); by rewrite ?removeEntry_objs, ?removeEntry_next.
Qed.

(** The list before the loop of [Set]: the new node, then the old nodes
    without the one replaced. *)
Lemma Set_insert_lru c key value ttl t1 t2 t3 :
  ∃ ls, lru (Set_insert c key value ttl t1 t2 t3) = next_loc c :: ls ∧ ls ⊆ lru c.
Proof.
  unfold Set_insert. simpl. destruct (data c !! key) as [l|].
  - rewrite removeEntry_next. eexists. split; [done|].
    unfold removeEntry. destruct (objs c !! l); simpl; [|done].
    intros x. rewrite elem_of_Remove. tauto.
  - by eexists.
Qed.

(** Every node left by [Set] is the new node or an old one. *)
Lemma Set_lru_sub c key value ttl t1 t2 t3 l :
  Inv c → l ∈ lru (Set_ c key value ttl t1 t2 t3) → l = next_loc c ∨ l ∈ lru c.
Proof.
  intros HI. unfold Set_.
  rewrite evict_loop_prefix by by apply Set_insert_Inv.
  intros Hin%subseteq_take.
  destruct (Set_insert_lru c key value ttl t1 t2 t3) as (ls & Heq & Hsub).
  rewrite Heq in Hin. apply elem_of_cons in Hin as [?|?]; [by left|right; by apply Hsub].
Qed.

(** Mapping an injective function commutes with dropping one element. *)
Lemma fmap_Remove_inj (f : loc → string) (l : loc) (ls : list loc) :
  (∀ x, x ∈ ls → f x = f l → x = l) →
  f <$> List_.Remove l ls = filter (λ k, k ≠ f l) (f <$> ls).
Proof.
  unfold List_.Remove. induction ls as [|x ls IH]; intros Hinj; [done|].
  assert (Hrec : ∀ y, y ∈ ls → f y = f l → y = l).
  { intros y Hy. apply Hinj. by right. }
  rewrite fmap_cons. destruct (decide (x = l)) as [->|Hne].
  - rewrite filter_cons_False by (intros ?; done).
    rewrite filter_cons_False by (intros ?; done). by apply IH.
  - rewrite filter_cons_True by done.
    rewrite (filter_cons_True (λ k, k ≠ f l)).
    + rewrite fmap_cons. f_equal. by apply IH.
    + intros Heq. apply Hne. apply Hinj; [by left|done].
Qed.

Lemma lru_keys_Remove c l :
  Inv c → l ∈ lru c →
  key_at c <$> List_.Remove l (lru c)
  = filter (λ k, k ≠ key_at c l) (lru_keys c).
Proof.
  intros HI Hin. apply fmap_Remove_inj. intros x Hx Heq.
  by apply (key_at_inj c HI).
Qed.

(** [Get] and [Exists] in terms of what is stored. *)
Lemma Get_visible c key t_check t_access :
  (Get c key t_check t_access).1 = visible t_check (stored c key).
Proof.
  unfold Get, stored, visible, is_expired.
  destruct (data c !! key) as [l|]; [|done].
  destruct (objs c !! l) as [e|]; [|done].
  destruct (ExpiresAt e) as [d|]; [|done]. by destruct (d <? t_check).
Qed.

Lemma Exists_visible c key now :
  Exists c key now = bool_decide (is_Some (visible now (stored c key))).
Proof.
  unfold Exists, stored, visible, is_expired.
  destruct (data c !! key) as [l|]; [|done].
  destruct (objs c !! l) as [e|]; [|done].
  destruct (ExpiresAt e) as [d|]; [|done]. by destruct (d <? now).
Qed.

(** The state a successful [Get] leaves. *)
Lemma Get_hit_state c k l e t_check t_access :
  Inv c → data c !! k = Some l → objs c !! l = Some e →
  is_expired e t_check = false →
  Get c k t_check t_access
  = (Some (Value e),
     mkCache (<[l := mkEntry (Key e) (Value e) (ExpiresAt e) (CreatedAt e)
                             (wrap64 (AccessCount e + 1)) t_access (element e)]>
                (objs c))
             (next_loc c) (data c) (l :: List_.Remove l (lru c))
             (maxSize c) (currentSize c)).
Proof.
  intros HI Hk He Hlive.
  destruct (inv_index c HI k l Hk) as (Hin & _).
  destruct (inv_alloc c HI l e He) as [_ Hel].
  unfold Get. rewrite Hk, He, Hlive. simpl. rewrite Hel.
  by rewrite (MoveToFront_head l (lru c) (inv_nodup c HI) Hin).
Qed.

Lemma Get_hit_lru_keys c k l e t_check t_access :
  Inv c → data c !! k = Some l → objs c !! l = Some e →
  is_expired e t_check = false →
  lru_keys (Get c k t_check t_access).2
  = k :: filter (λ k', k' ≠ k) (lru_keys c).
Proof.
  intros HI Hk He Hlive.
  destruct (inv_index c HI k l Hk) as (Hin & e' & He' & Hke).
  rewrite He in He'. injection He' as <-.
  rewrite (Get_hit_state c k l e t_check t_access HI Hk He Hlive).
  unfold lru_keys. simpl. f_equal.
  - unfold key_at. simpl. by rewrite lookup_insert_eq.
  - pose proof (lru_keys_Remove c l HI Hin) as Hrem.
    rewrite (key_at_entry c l e He), Hke in Hrem. unfold lru_keys in Hrem.
    rewrite <- Hrem. apply list_fmap_ext. intros i x Hx. unfold key_at. simpl.
    rewrite lookup_insert_ne; [done|].
    apply list_elem_of_lookup_2, elem_of_Remove in Hx as [_ ?]. done.
Qed.

(** ** [Get] on a live entry *)

(** X1. A [Get] that finds an entry whose deadline has not passed returns
    its value, leaves the index as it is, moves the node to the front of the
    recency list without disturbing the order of the other keys, adds one to
    the entry's access counter (an [int64] addition), stores the second
    clock reading in [LastAccessed], and touches no other field and no other
    entry. *)
Theorem Get_hit_promotes_and_counts
    (c : Cache) (k : string) (l : loc) (e : CacheEntry) (t_check t_access : Z) :
  Inv c → data c !! k = Some l → objs c !! l = Some e →
  is_expired e t_check = false →
  (Get c k t_check t_access).1 = Some (Value e) ∧
  data (Get c k t_check t_access).2 = data c ∧
  lru (Get c k t_check t_access).2 = l :: List_.Remove l (lru c) ∧
  lru_keys (Get c k t_check t_access).2
  = k :: filter (λ k', k' ≠ k) (lru_keys c) ∧
  objs (Get c k t_check t_access).2 !! l
  = Some (mkEntry (Key e) (Value e) (ExpiresAt e) (CreatedAt e)
                  (wrap64 (AccessCount e + 1)) t_access (element e)) ∧
  (∀ l', l' ≠ l → objs (Get c k t_check t_access).2 !! l' = objs c !! l') ∧
  currentSize (Get c k t_check t_access).2 = currentSize c.
Proof.
  intros HI Hk He Hlive.
  pose proof (Get_hit_lru_keys c k l e t_check t_access HI Hk He Hlive) as Hkeys.
  revert Hkeys. rewrite (Get_hit_state c k l e t_check t_access HI Hk He Hlive).
  simpl. intros Hkeys.
  split; [done|]. split; [done|]. split; [done|]. split; [done|].
  split; [by rewrite lookup_insert_eq|]. split; [|done].
  intros l' Hne. by rewrite lookup_insert_ne.
Qed.

Lemma Get_hit_promotes_and_counts_witness :
  Inv sample ∧ data sample !! "a" = Some 0%nat ∧
  (Get sample "a" 6 7).1 = Some ["x"%byte] ∧
  lru_keys (Get sample "a" 6 7).2 = ["a"; "b"] ∧
  objs (Get sample "a" 6 7).2 !! 0%nat
  = Some (mkEntry "a" ["x"%byte] None 1 1 7 0%nat).
Proof.
  assert (Hk : data sample !! "a" = Some 0%nat) by (vm_compute; reflexivity).
  assert (He : objs sample !! 0%nat = Some (mkEntry "a" ["x"%byte] None 1 0 1 0%nat))
    by (vm_compute; reflexivity).
  split; [apply sample_Inv|]. split; [exact Hk|].
  destruct (Get_hit_promotes_and_counts sample "a" 0%nat _ 6 7 sample_Inv Hk He eq_refl)
    as (Hv & _ & _ & Hkeys & Hobj & _).
  split; [exact Hv|]. split; [|exact Hobj].
  rewrite Hkeys. vm_compute. reflexivity.
Defined.

(** ** [Exists] against [Get] *)

(** X2. At one clock reading [Exists] answers [true] exactly when [Get]
    would return a value, and that value is the stored one.  An answer
    [false] does not mean the key is gone: for an entry whose deadline has
    passed, [Exists] is [false] while [Delete] still reports a removal. *)
Theorem Exists_agrees_with_Get (c : Cache) (key : string) (now t_access : Z) :
  (Exists c key now = true ↔ ∃ v, (Get c key now t_access).1 = Some v) ∧
  (∀ v, (Get c key now t_access).1 = Some v →
        ∃ deadline, stored c key = Some (v, deadline)) ∧
  (∀ l e, data c !! key = Some l → objs c !! l = Some e →
          is_expired e now = true →
          Exists c key now = false ∧ (Delete c key).1 = true).
Proof.
  rewrite Exists_visible, Get_visible. split; [|split].
  - rewrite bool_decide_eq_true. unfold is_Some. done.
  - intros v. unfold visible.
    destruct (stored c key) as [[v' [d|]]|]; [|intros [= ->]; eauto|done].
    destruct (d <? now); [done|]. intros [= ->]. eauto.
  - intros l e Hk He Hexp. unfold stored, Delete. rewrite Hk, He. simpl.
    split; [|done]. unfold is_expired in Hexp.
    destruct (ExpiresAt e) as [d|]; [|done]. by rewrite Hexp.
Qed.

(** ** [Set] followed by [Get] *)

(** The node a replaced key had is not in the list [Set] leaves. *)
Lemma Set_drops_old_node c key value ttl t1 t2 t3 l :
  Inv c → data c !! key = Some l → l ∉ lru (Set_ c key value ttl t1 t2 t3).
Proof.
  intros HI Hk. unfold Set_.
  rewrite evict_loop_prefix by by apply Set_insert_Inv.
  intros Hin%subseteq_take. revert Hin.
  rewrite (Set_insert_present c key value ttl t1 t2 t3 HI l Hk). simpl.
  rewrite elem_of_cons, elem_of_Remove. intros [->|[_ ?]]; [|done].
  destruct (next_loc_fresh c HI) as [_ Hfresh].
  by apply Hfresh, (inv_index c HI key).
Qed.

(** With room for one entry, the key is indexed at the new node after
    [Set]. *)
Lemma Set_installs c key value ttl t1 t2 t3 :
  Inv c → over_capacity c = false → 1 ≤ maxSize c →
  data (Set_ c key value ttl t1 t2 t3) !! key = Some (next_loc c).
Proof.
  intros HI Hfit Hcap.
  pose proof (Set_Inv c key value ttl t1 t2 t3 HI) as HI'.
  destruct (Set_present c key value ttl t1 t2 t3 HI Hfit Hcap) as [l' Hk'].
  destruct (inv_index _ HI' key l' Hk') as (Hin' & e' & He' & Hke').
  destruct (Set_lru_sub c key value ttl t1 t2 t3 l' HI Hin') as [->|Hold]; [done|].
  exfalso. destruct (next_loc_fresh c HI) as [_ Hfresh].
  rewrite Set_objs, lookup_insert_ne in He' by (intros <-; done).
  destruct (inv_list c HI l' Hold) as (e & He & Hk).
  rewrite He in He'. injection He' as ->. rewrite Hke' in Hk.
  by apply (Set_drops_old_node c key value ttl t1 t2 t3 l' HI Hk).
Qed.

(** X3. On a cache of capacity at least 1, whatever it holds, [Set(k, v,
    ttl)] followed by [Get(k)] returns [v] as long as the deadline has not
    passed: always when [ttl] is nil, and for a TTL [d] exactly when the
    clock reading of the [Get] is at most the reading [Set] took plus [d].
    A TTL below zero therefore stores an entry no later read can see. *)
Theorem Set_then_Get_round_trip
    (n : Z) (c : Cache) (key : string) (value : list byte) (ttl : option Z)
    (t_created t_accessed t_expiry t_check t_access : Z) :
  Reachable n c → 1 ≤ n →
  stored (Set_ c key value ttl t_created t_accessed t_expiry) key
  = Some (value, (λ d, t_expiry + d) <$> ttl) ∧
  (Get (Set_ c key value ttl t_created t_accessed t_expiry) key t_check t_access).1
  = match ttl with
    | Some d => if t_expiry + d <? t_check then None else Some value
    | None => Some value
    end ∧
  Exists (Set_ c key value ttl t_created t_accessed t_expiry) key t_check
  = match ttl with
    | Some d => negb (t_expiry + d <? t_check)
    | None => true
    end ∧
  (∀ d, ttl = Some d → d < 0 → t_expiry ≤ t_check →
     (Get (Set_ c key value ttl t_created t_accessed t_expiry) key t_check t_access).1
     = None).
Proof.
  intros Hr Hn. destruct (Reachable_Inv n c Hr) as (HI & Hmax & Hfit).
  assert (Hst : stored (Set_ c key value ttl t_created t_accessed t_expiry) key
                = Some (value, (λ d, t_expiry + d) <$> ttl)).
  { unfold stored.
    rewrite (Set_installs c key value ttl _ _ _ HI Hfit ltac:(lia)).
    by rewrite Set_objs, lookup_insert_eq. }
  split; [done|]. rewrite Get_visible, Exists_visible, Hst.
  split; [by destruct ttl|]. split.
  - destruct ttl as [d|]; simpl; [|done]. by destruct (t_expiry + d <? t_check).
  - intros d -> Hd Ht. simpl.
    destruct (t_expiry + d <? t_check) eqn:Hlt; [done|].
    apply Z.ltb_ge in Hlt. lia.
Qed.

Lemma Set_then_Get_round_trip_witness :
  Reachable 2 sample ∧ 1 ≤ 2 ∧
  (Get (Set_ sample "c" ["z"%byte] (Some 10) 20 20 20) "c" 30 30).1
  = Some ["z"%byte] ∧
  (Get (Set_ sample "c" ["z"%byte] (Some 10) 20 20 20) "c" 31 31).1 = None.
Proof.
  split; [apply sample_Reachable|]. split; [lia|].
  split.
  - apply (Set_then_Get_round_trip 2 sample "c" ["z"%byte] (Some 10) 20 20 20 30 30
             sample_Reachable ltac:(lia)).
  - apply (Set_then_Get_round_trip 2 sample "c" ["z"%byte] (Some 10) 20 20 20 31 31
             sample_Reachable ltac:(lia)).
Defined.

(** ** Only [Set] writes *)

(** A key indexed after a call at a node that was in the list before, with
    the entry untouched, was stored before with the same value and
    deadline. *)
Lemma stored_from_old c c' key l x :
  Inv c → Inv c' → data c' !! key = Some l → l ∈ lru c →
  objs c' !! l = objs c !! l →
  stored c' key = Some x → stored c key = Some x.
Proof.
  intros HI HI' Hk' Hin Hobjs. unfold stored. rewrite Hk', Hobjs.
  destruct (inv_index _ HI' key l Hk') as (_ & e' & He' & Hke').
  destruct (inv_list c HI l Hin) as (e & He & Hk).
  rewrite Hobjs, He in He'. injection He' as ->.
  by rewrite <- Hke', Hk, He.
Qed.

(** X4. Whatever the call ([Get], [Set], [Delete], [Clear] or [Cleanup]), a
    value and deadline found under a key afterwards were there before the
    call, unless the call is a [Set] of that very key.  No operation writes
    the value or the deadline of another key, and only [Set] adds a key. *)
Theorem only_Set_writes (c : Cache) (op : Op) (key : string)
    (x : list byte * option Z) :
  Inv c → stored (run c op) key = Some x →
  stored c key = Some x ∨ sets_key op key.
Proof.
  intros HI Hst. pose proof (run_Inv c op HI) as HI'.
  assert (Hk' : ∃ l, data (run c op) !! key = Some l).
  { unfold stored in Hst. destruct (data (run c op) !! key); [eauto|done]. }
  destruct Hk' as [l Hk'].
  destruct (inv_index _ HI' key l Hk') as (Hin' & _).
  destruct op as [k t_check t_access|k v ttl t1 t2 t3|k| |visits]; simpl in *.
  - left. unfold Get in *.
    destruct (data c !! k) as [lk|] eqn:Hk; [|done].
    destruct (inv_index c HI k lk Hk) as (Hink & e & He & Hke).
    rewrite He in *. destruct (is_expired e t_check) eqn:Hexp; simpl in *.
    + rewrite (removeEntry_indexed c HI k lk Hk) in *. simpl in *.
      apply elem_of_Remove in Hin' as [Hin' _].
      by apply (stored_from_old c _ key l x HI HI' Hk' Hin').
    + destruct (inv_alloc c HI lk e He) as [_ Hel]. rewrite Hel in *.
      revert Hst. unfold stored. simpl.
      destruct (data c !! key) as [l0|]; [|done].
      destruct (decide (l0 = lk)) as [->|Hne].
      * by rewrite lookup_insert_eq, He.
      * by rewrite lookup_insert_ne.
  - destruct (decide (k = key)) as [->|Hne]; [by right|left].
    destruct (inv_index _ HI' key l Hk') as (_ & e' & He' & Hke').
    destruct (next_loc_fresh c HI) as [_ Hfresh].
    destruct (Set_lru_sub c k v ttl t1 t2 t3 l HI Hin') as [->|Hold].
    + rewrite Set_objs, lookup_insert_eq in He'. injection He' as <-. done.
    + apply (stored_from_old c _ key l x HI HI' Hk' Hold); [|done].
      rewrite Set_objs, lookup_insert_ne; [done|]. by intros <-.
  - left. unfold Delete in *.
    destruct (data c !! k) as [lk|] eqn:Hk; [|done]. simpl in *.
    rewrite (removeEntry_indexed c HI k lk Hk) in *. simpl in *.
    apply elem_of_Remove in Hin' as [Hin' _].
    by apply (stored_from_old c _ key l x HI HI' Hk' Hin').
  - by rewrite lookup_empty in Hk'.
  - left. destruct (Cleanup_fold visits 0 c HI) as (_ & Hobjs & _ & _ & _ & Hmem).
    fold (Cleanup c visits) in *.
    apply Hmem in Hin' as [Hin' _].
    apply (stored_from_old c _ key l x HI HI' Hk' Hin'); [|done].
    by rewrite Hobjs.
Qed.

Lemma only_Set_writes_witness :
  Inv sample ∧
  stored (run sample (OpSet "c" [] None 9 9 9)) "b" = Some (["y"%byte], Some 15) ∧
  (stored sample "b" = Some (["y"%byte], Some 15)
   ∨ sets_key (OpSet "c" [] None 9 9 9) "b").
Proof.
  assert (Hst : stored (run sample (OpSet "c" [] None 9 9 9)) "b"
                = Some (["y"%byte], Some 15)) by (vm_compute; reflexivity).
  split; [apply sample_Inv|]. split; [exact Hst|].
  apply (only_Set_writes sample (OpSet "c" [] None 9 9 9) "b" _ sample_Inv Hst).
Defined.

(** ** [Delete] and the other keys *)

(** X5. [Delete(k)] takes [k] out and nothing else: the other keys keep
    their value, deadline and relative recency order, a [Get] or [Exists] of
    [k] right after finds nothing, and the capacity is unchanged.  This
    holds whether or not [k] was resident. *)
Theorem Delete_leaves_other_keys (c : Cache) (k : string) :
  Inv c →
  lru_keys (Delete c k).2 = filter (λ k', k' ≠ k) (lru_keys c) ∧
  stored (Delete c k).2 k = None ∧
  (∀ k', k' ≠ k → stored (Delete c k).2 k' = stored c k') ∧
  (∀ t_check t_access,
     Get (Delete c k).2 k t_check t_access = (None, (Delete c k).2)) ∧
  (∀ now, Exists (Delete c k).2 k now = false) ∧
  maxSize (Delete c k).2 = maxSize c.
Proof.
  intros HI. unfold Delete. destruct (data c !! k) as [l|] eqn:Hk; simpl.
  - destruct (inv_index c HI k l Hk) as (Hin & e & He & Hke).
    pose proof (lru_keys_Remove c l HI Hin) as Hrem.
    rewrite (key_at_entry c l e He), Hke in Hrem.
    rewrite (removeEntry_indexed c HI k l Hk).
    assert (Hgone : ∀ t_check t_access,
      Get (mkCache (objs c) (next_loc c) (delete k (data c))
                   (List_.Remove l (lru c)) (maxSize c) (currentSize c - 1))
          k t_check t_access
      = (None, mkCache (objs c) (next_loc c) (delete k (data c))
                       (List_.Remove l (lru c)) (maxSize c) (currentSize c - 1))).
    { intros. unfold Get. simpl. by rewrite lookup_delete_eq. }
    split; [done|]. split; [|split; [|split; [done|split; [|done]]]].
    + unfold stored. simpl. by rewrite lookup_delete_eq.
    + intros k' Hne. unfold stored. simpl. by rewrite lookup_delete_ne.
    + intros now. unfold Exists. simpl. by rewrite lookup_delete_eq.
  - assert (Hnin : k ∉ lru_keys c).
    { rewrite (elem_of_lru_keys c HI), Hk. by intros [? ?]. }
    split.
    { symmetry. clear -Hnin. induction (lru_keys c) as [|k0 ks IH]; [done|].
      apply not_elem_of_cons in Hnin as [Hne Hnin].
      rewrite filter_cons_True by done. f_equal. by apply IH. }
    split; [unfold stored; by rewrite Hk|]. split; [done|].
    split; [intros; unfold Get; by rewrite Hk|]. split; [|done].
    intros now. unfold Exists. by rewrite Hk.
Qed.

Lemma Delete_leaves_other_keys_witness :
  Inv sample ∧
  lru_keys (Delete sample "b").2 = ["a"] ∧
  stored (Delete sample "b").2 "a" = Some (["x"%byte], None).
Proof.
  split; [apply sample_Inv|].
  destruct (Delete_leaves_other_keys sample "b" sample_Inv)
    as (Hkeys & _ & Hother & _).
  split.
  - rewrite Hkeys. vm_compute. reflexivity.
  - rewrite Hother by discriminate. vm_compute. reflexivity.
Defined.

(** ** [Clear] *)

(** X6. After [Clear] nothing is resident: every [Get] and [Exists] finds
    nothing, [Cleanup] has nothing to remove, and [Stats] reports zero keys,
    zero size, zero accesses, zero bytes and a hit rate of 0 next to the
    unchanged capacity.  The cache stays usable: a [Set] right after (with a
    capacity of at least 1) leaves exactly the key that was set. *)
Theorem Clear_empties_and_keeps_capacity
    (c : Cache) (key : string) (value : list byte) (ttl : option Z)
    (t_created t_accessed t_expiry : Z) :
  Inv c → 1 ≤ maxSize c →
  (∀ k t_check t_access, Get (Clear c) k t_check t_access = (None, Clear c)) ∧
  (∀ k now, Exists (Clear c) k now = false) ∧
  (∀ visits, Cleanup (Clear c) visits = (0, Clear c)) ∧
  Stats (Clear c) = mkStats 0 (maxSize c) 0 0 0 0%Q ∧
  Inv (Clear c) ∧
  lru_keys (Set_ (Clear c) key value ttl t_created t_accessed t_expiry) = [key] ∧
  Set_evictions (Clear c) key value ttl t_created t_accessed t_expiry = O.
Proof.
  intros HI Hcap. pose proof (Clear_Inv c HI) as HI'.
  split; [intros; unfold Get; simpl; by rewrite lookup_empty|].
  split; [intros; unfold Exists; simpl; by rewrite lookup_empty|].
  split.
  { intros visits. unfold Cleanup. generalize 0.
    induction visits as [|[k t] vs IH]; intros z; [done|]. cbn [foldl].
    rewrite Cleanup_step_kept; [apply IH|].
    intros l e. simpl. by rewrite lookup_empty. }
  split.
  { unfold Stats, calculateHitRate, resident. simpl.
    by rewrite map_to_list_empty, map_size_empty. }
  split; [done|].
  destruct (Set_fresh_room (Clear c) key value ttl t_created t_accessed t_expiry HI')
    as (_ & -> & ->); [apply lookup_empty|simpl; lia|done].
Qed.

Lemma Clear_empties_and_keeps_capacity_witness :
  Inv sample ∧ 1 ≤ maxSize sample ∧
  Stats (Clear sample) = mkStats 0 2 0 0 0 0%Q ∧
  lru_keys (Set_ (Clear sample) "k" [] None 1 1 1) = ["k"].
Proof.
  split; [apply sample_Inv|]. split; [vm_compute; discriminate|].
  destruct (Clear_empties_and_keeps_capacity sample "k" [] None 1 1 1 sample_Inv)
    as (_ & _ & _ & Hstats & _ & Hkeys & _); [vm_compute; discriminate|].
  split; [exact Hstats|exact Hkeys].
Defined.

(** ** Every execution *)

(** X7. In every state a cache built by [NewCache(n)] can reach, by any
    sequence of [Get], [Set], [Delete], [Clear] and [Cleanup] calls, the
    invariant holds, the capacity is still [n], the index and the recency
    list have [currentSize] members each, [Stats] reports the same number as
    [total_keys] and [current_size], and that number is at most [n] (at most
    0 when [n] is negative). *)
Theorem every_reachable_state_is_consistent_and_bounded (n : Z) (c : Cache) :
  Reachable n c →
  Inv c ∧ maxSize c = n ∧
  size (data c) = length (lru c) ∧
  currentSize c = Z.of_nat (size (data c)) ∧
  total_keys (Stats c) = current_size (Stats c) ∧
  max_size (Stats c) = n ∧
  Z.of_nat (size (data c)) ≤ Z.max n 0.
Proof.
  intros Hr. destruct (Reachable_Inv n c Hr) as (HI & Hmax & Hfit).
  pose proof (index_size_list c HI) as Hsz.
  pose proof (inv_size c HI) as Hcur.
  split; [done|]. split; [done|]. split; [done|].
  split; [by rewrite Hsz|]. split; [simpl; by rewrite Hsz|]. split; [done|].
  apply over_capacity_false in Hfit as [Hle|Hnil].
  - rewrite Hsz, <- Hcur. lia.
  - rewrite Hsz, Hnil. simpl. lia.
Qed.

Lemma every_reachable_state_is_consistent_and_bounded_witness :
  Reachable 2 sample ∧ Z.of_nat (size (data sample)) ≤ Z.max 2 0.
Proof.
  split; [apply sample_Reachable|].
  apply (every_reachable_state_is_consistent_and_bounded 2 sample sample_Reachable).
Defined.

(** ** What [Set] does to the recency order *)

(** X8. On a cache of capacity [n ≥ 1], in any reachable state, [Set(k, ...)]
    puts [k] at the front of the recency order and does one of three things
    to the keys behind it: when [k] was resident they are the old keys
    without [k], and nothing is evicted; when [k] is new and there is room
    they are the old keys, and nothing is evicted; when [k] is new and the
    cache is full they are the old keys without the last one, the one
    eviction of the call.  So a [Set] never evicts more than one entry, and
    never evicts when it overwrites. *)
Theorem Set_reorders_and_evicts_at_most_one
    (n : Z) (c : Cache) (k : string) (v : list byte) (ttl : option Z)
    (t_created t_accessed t_expiry : Z) :
  Reachable n c → 1 ≤ n →
  lru_keys (Set_ c k v ttl t_created t_accessed t_expiry)
  = k :: (if decide (is_Some (data c !! k))
          then filter (λ k', k' ≠ k) (lru_keys c)
          else if decide (currentSize c < n) then lru_keys c
               else removelast (lru_keys c)) ∧
  Set_evictions c k v ttl t_created t_accessed t_expiry
  = (if decide (is_Some (data c !! k)) then O
     else if decide (currentSize c < n) then O else 1%nat).
Proof.
  intros Hr Hn. destruct (Reachable_Inv n c Hr) as (HI & Hmax & Hfit).
  destruct (decide (is_Some (data c !! k))) as [[l Hk]|Hnone].
  - destruct (inv_index c HI k l Hk) as (Hin & e & He & Hke).
    assert (Hle : currentSize c ≤ maxSize c).
    { apply over_capacity_false in Hfit as [?|Hnil]; [done|].
      rewrite Hnil in Hin. by apply elem_of_nil in Hin. }
    unfold Set_, Set_evictions.
    rewrite (Set_insert_present c k v ttl _ _ _ HI l Hk).
    match goal with |- context [evict_loop ?f ?x] =>
      destruct (evict_loop_within f x) as [-> ->]; [done|] end.
    split; [|done]. unfold lru_keys at 1. simpl. f_equal.
    + unfold key_at. simpl. by rewrite lookup_insert_eq.
    + pose proof (lru_keys_Remove c l HI Hin) as Hrem.
      rewrite (key_at_entry c l e He), Hke in Hrem. rewrite <- Hrem.
      apply (key_at_fmap_after_insert c k v ttl t_created t_accessed t_expiry HI
               (mkCache _ _ _ _ _ _)); [done|].
      intros x. rewrite elem_of_Remove. tauto.
  - assert (Hk : data c !! k = None).
    { destruct (data c !! k) eqn:E; [|done]. destruct Hnone. eauto. }
    rewrite <- Hmax.
    destruct (decide (currentSize c < maxSize c)) as [Hroom|Hfull].
    + destruct (Set_fresh_room c k v ttl t_created t_accessed t_expiry HI Hk Hroom)
        as (_ & -> & ->). done.
    + assert (Hne : lru c ≠ []).
      { intros Hnil. pose proof (inv_size c HI) as Hsz.
        rewrite Hnil in Hsz. simpl in Hsz. lia. }
      assert (Heq : currentSize c = maxSize c).
      { apply over_capacity_false in Hfit as [?|?]; [lia|done]. }
      destruct (lru_keys c) as [|k0 ks _] eqn:Hkeys using rev_ind.
      { unfold lru_keys in Hkeys. by apply fmap_nil_inv in Hkeys. }
      destruct (Set_fresh_full c k v ttl t_created t_accessed t_expiry HI ks k0
                  Hk Heq Hkeys) as (-> & -> & _).
      by rewrite removelast_last.
Qed.

Lemma Set_reorders_and_evicts_at_most_one_witness :
  Reachable 2 sample ∧ 1 ≤ 2 ∧
  lru_keys (Set_ sample "c" [] None 9 9 9) = ["c"; "b"] ∧
  Set_evictions sample "c" [] None 9 9 9 = 1%nat ∧
  lru_keys (Set_ sample "a" [] None 9 9 9) = ["a"; "b"].
Proof.
  split; [apply sample_Reachable|]. split; [lia|].
  destruct (Set_reorders_and_evicts_at_most_one
              2 sample "c" [] None 9 9 9 sample_Reachable ltac:(lia)) as [Hkeys Hev].
  destruct (Set_reorders_and_evicts_at_most_one
              2 sample "a" [] None 9 9 9 sample_Reachable ltac:(lia)) as [Hkeys' _].
  split; [rewrite Hkeys; vm_compute; reflexivity|].
  split; [rewrite Hev; vm_compute; reflexivity|].
  rewrite Hkeys'. vm_compute. reflexivity.
Defined.

(** ** A negative capacity *)

(** X9. [NewCache] takes a negative [maxSize] as it is, and such a cache
    behaves like one of capacity zero: it is empty in every reachable state,
    and every [Set] inserts its entry and evicts it at once.  The loop of
    [Set] then stops on its second test, the empty list, with [currentSize]
    (0) still above [maxSize]; it does not run on. *)
Theorem negative_capacity_cache_stays_empty
    (n : Z) (c : Cache) (key : string) (value : list byte) (ttl : option Z)
    (t_created t_accessed t_expiry : Z) :
  n < 0 → Reachable n c →
  (data c = ∅ ∧ lru c = []) ∧
  Set_evictions c key value ttl t_created t_accessed t_expiry = 1%nat ∧
  data (Set_ c key value ttl t_created t_accessed t_expiry) = ∅ ∧
  lru (Set_ c key value ttl t_created t_accessed t_expiry) = [] ∧
  currentSize (Set_ c key value ttl t_created t_accessed t_expiry) = 0 ∧
  maxSize (Set_ c key value ttl t_created t_accessed t_expiry) < 0 ∧
  over_capacity (Set_ c key value ttl t_created t_accessed t_expiry) = false ∧
  (∀ k t_check t_access,
     Get (Set_ c key value ttl t_created t_accessed t_expiry) k t_check t_access
     = (None, Set_ c key value ttl t_created t_accessed t_expiry)).
Proof.
  intros Hn Hr.
  destruct (Reachable_no_room n c ltac:(lia) Hr) as [Hnil Hempty].
  destruct (Reachable_Inv n c Hr) as (HI & Hmax & _).
  set (op := OpSet key value ttl t_created t_accessed t_expiry).
  assert (Hr' : Reachable n (run c op)) by by apply reach_step.
  destruct (Reachable_no_room n _ ltac:(lia) Hr') as [Hnil' Hempty'].
  destruct (Reachable_Inv n _ Hr') as (HI' & Hmax' & Hfit').
  simpl in Hnil', Hempty', HI', Hmax', Hfit'.
  split; [done|]. split.
  { unfold Set_evictions.
    rewrite (Set_insert_fresh c key value ttl _ _ _) by by rewrite Hempty.
    rewrite Hnil. simpl. unfold over_capacity. simpl.
    rewrite (inv_size c HI), Hnil, Hmax. simpl.
    change (Z.of_nat 0 + 1) with 1.
    by rewrite (proj2 (Z.ltb_lt n 1)) by lia. }
  split; [done|]. split; [done|].
  split; [by rewrite (inv_size _ HI'), Hnil'|].
  split; [lia|]. split; [done|].
  intros k t_check t_access. unfold Get. by rewrite Hempty', lookup_empty.
Qed.

Lemma negative_capacity_cache_stays_empty_witness :
  -1 < 0 ∧ Reachable (-1) (NewCache (-1)) ∧
  data (Set_ (NewCache (-1)) "k" ["v"%byte] None 1 1 1) = ∅ ∧
  Set_evictions (NewCache (-1)) "k" ["v"%byte] None 1 1 1 = 1%nat.
Proof.
  split; [lia|]. split; [apply reach_new|].
  destruct (negative_capacity_cache_stays_empty
              (-1) (NewCache (-1)) "k" ["v"%byte] None 1 1 1 ltac:(lia) (reach_new _))
    as (_ & Hev & Hdata & _).
  split; [exact Hdata|exact Hev].
Defined.

(** ** [Stats] *)




(** The nodes of the index are the nodes of the list, each once. *)
Lemma NoDup_index_nodes c : Inv c → NoDup (map_to_list (data c)).*2.
Proof.
  intros HI. rewrite (index_perm_list c HI), <- list_fmap_compose.
  assert (∀ ls : list loc, (snd ∘ (λ l, (key_at c l, l))) <$> ls = ls) as ->.
  { induction ls as [|x ls IH]; [done|]. rewrite fmap_cons, IH. done. }
  apply (inv_nodup c HI).
Qed.

(** Replacing one entry of the store moves the sum of the counters by the
    difference of the two counters. *)
Lemma sum_accesses_update (m : gmap loc CacheEntry) l e e'
    (kls : list (string * loc)) k :
  NoDup kls.*2 → (k, l) ∈ kls → m !! l = Some e →
  sum_accesses (omap (λ kl, <[l := e']> m !! kl.2) kls)
  = sum_accesses (omap (λ kl, m !! kl.2) kls) - AccessCount e + AccessCount e'.
Proof.
  intros Hnd Hin Hl.
  induction kls as [|[k0 l0] kls IH]; [by apply elem_of_nil in Hin|].
  rewrite fmap_cons in Hnd. apply NoDup_cons in Hnd as [Hnin Hnd]. simpl in Hnin.
  cbn [omap list_omap]. simpl snd.
  destruct (decide (l0 = l)) as [->|Hne].
  - rewrite lookup_insert_eq, Hl. simpl.
    assert (omap (λ kl, <[l := e']> m !! kl.2) kls = omap (λ kl, m !! kl.2) kls) as ->.
    { apply list_omap_ext. apply Forall2_same_length_lookup.
      split; [done|]. intros i [k1 l1] [k2 l2] H1 H2. simplify_eq. simpl.
      apply lookup_insert_ne. intros <-. apply Hnin.
      apply list_elem_of_fmap. exists (k1, l). split; [done|].
      by eapply list_elem_of_lookup_2. }
    lia.
  - rewrite lookup_insert_ne by done.
    apply elem_of_cons in Hin as [[= _ ?]|Hin]; [done|].
    destruct (m !! l0) as [e0|]; simpl; rewrite IH by done; lia.
Qed.

(** X11. A successful [Get] adds exactly one to the [total_accesses] that
    [Stats] reports (as an [int64] addition; without overflow the plain
    successor), and leaves [total_keys], [current_size] and [max_size]
    alone. *)
Theorem Get_hit_adds_one_access
    (c : Cache) (k : string) (l : loc) (e : CacheEntry) (t_check t_access : Z) :
  Inv c → data c !! k = Some l → objs c !! l = Some e →
  is_expired e t_check = false →
  total_accesses (Stats (Get c k t_check t_access).2)
  = wrap64 (total_accesses (Stats c) + 1) ∧
  (0 ≤ total_accesses (Stats c) < 2 ^ 63 - 1 →
   total_accesses (Stats (Get c k t_check t_access).2)
   = total_accesses (Stats c) + 1) ∧
  total_keys (Stats (Get c k t_check t_access).2) = total_keys (Stats c) ∧
  current_size (Stats (Get c k t_check t_access).2) = current_size (Stats c) ∧
  max_size (Stats (Get c k t_check t_access).2) = max_size (Stats c).
Proof.
  intros HI Hk He Hlive.
  rewrite (Get_hit_state c k l e t_check t_access HI Hk He Hlive). simpl.
  assert (Hone : totalRequests_over
                   (resident (mkCache
                      (<[l := mkEntry (Key e) (Value e) (ExpiresAt e) (CreatedAt e)
                                      (wrap64 (AccessCount e + 1)) t_access (element e)]>
                         (objs c))
                      (next_loc c) (data c) (l :: List_.Remove l (lru c))
                      (maxSize c) (currentSize c)))
                 = wrap64 (totalRequests_over (resident c) + 1)).
  { rewrite !totalRequests_closed. unfold resident. simpl.
    rewrite (sum_accesses_update (objs c) l e _ (map_to_list (data c)) k
               (NoDup_index_nodes c HI)); [|by apply elem_of_map_to_list|done].
    simpl. rewrite wrap64_add_l.
    replace (sum_accesses (omap (λ kl, objs c !! kl.2) (map_to_list (data c)))
             - AccessCount e + wrap64 (AccessCount e + 1))
      with (wrap64 (AccessCount e + 1)
            + (sum_accesses (omap (λ kl, objs c !! kl.2) (map_to_list (data c)))
               - AccessCount e)) by lia.
    rewrite wrap64_add_l. f_equal. lia. }
  split; [done|]. split; [|done].
  intros Hrange. rewrite Hone. apply wrap64_small. lia.
Qed.

Lemma Get_hit_adds_one_access_witness :
  Inv sample_read ∧ data sample_read !! "a" = Some 0%nat ∧
  total_accesses (Stats sample_read) = 1 ∧
  total_accesses (Stats (Get sample_read "a" 8 8).2) = 2.
Proof.
  assert (Hk : data sample_read !! "a" = Some 0%nat) by (vm_compute; reflexivity).
  assert (He : objs sample_read !! 0%nat
               = Some (mkEntry "a" ["x"%byte] None 1 1 6 0%nat))
    by (vm_compute; reflexivity).
  assert (Hacc : total_accesses (Stats sample_read) = 1) by (vm_compute; reflexivity).
  split; [apply sample_read_Inv|]. split; [exact Hk|]. split; [exact Hacc|].
  destruct (Get_hit_adds_one_access sample_read "a" 0%nat _ 8 8
              sample_read_Inv Hk He eq_refl) as (_ & Hplain & _).
  rewrite Hplain; rewrite Hacc; [reflexivity|lia].
Defined.

(** ** A read protects a key from the next eviction *)

(** X12. In a full cache with at least two entries, a successful [Get(k)]
    followed by a [Set] of a new key [k2] evicts the key that is last among
    the others and keeps [k]: the recency order afterwards is [k2], then
    [k], then the other old keys without their last one. *)
Theorem Get_then_Set_spares_the_key_just_read
    (c : Cache) (k k2 : string) (l : loc) (e : CacheEntry) (v : list byte)
    (ttl : option Z) (t_check t_access t_created t_accessed t_expiry : Z) :
  Inv c → currentSize c = maxSize c → (2 ≤ length (lru c))%nat →
  data c !! k = Some l → objs c !! l = Some e → is_expired e t_check = false →
  data c !! k2 = None →
  ∃ ks k0,
    filter (λ k', k' ≠ k) (lru_keys c) = ks ++ [k0] ∧
    lru_keys (Set_ (Get c k t_check t_access).2 k2 v ttl
                   t_created t_accessed t_expiry)
    = k2 :: k :: ks ∧
    Set_evictions (Get c k t_check t_access).2 k2 v ttl
                  t_created t_accessed t_expiry = 1%nat ∧
    is_Some (data (Set_ (Get c k t_check t_access).2 k2 v ttl
                        t_created t_accessed t_expiry) !! k) ∧
    data (Set_ (Get c k t_check t_access).2 k2 v ttl
               t_created t_accessed t_expiry) !! k0 = None.
Proof.
  intros HI Hfull Hlen Hk He Hlive Hk2.
  pose proof (Get_Inv c k t_check t_access HI) as HI1.
  pose proof (Get_hit_lru_keys c k l e t_check t_access HI Hk He Hlive) as Hkeys1.
  pose proof (Get_hit_state c k l e t_check t_access HI Hk He Hlive) as Hst.
  destruct (inv_index c HI k l Hk) as (Hin & _).
  set (c1 := (Get c k t_check t_access).2) in *.
  assert (Hdata1 : data c1 = data c) by (unfold c1; by rewrite Hst).
  assert (Hfull1 : currentSize c1 = maxSize c1) by (unfold c1; by rewrite Hst).
  pose proof (NoDup_lru_keys c1 HI1) as Hnd1. rewrite Hkeys1 in Hnd1.
  apply NoDup_cons in Hnd1 as [Hknin Hnd1].
  destruct (filter (λ k', k' ≠ k) (lru_keys c)) as [|k0 ks _] eqn:Hrest using rev_ind.
  { exfalso. pose proof (lru_keys_Remove c l HI Hin) as Hrem.
    destruct (inv_index c HI k l Hk) as (_ & e' & He' & Hke').
    rewrite (key_at_entry c l e' He'), Hke', Hrest in Hrem.
    apply fmap_nil_inv in Hrem.
    pose proof (length_Remove l (lru c) (inv_nodup c HI) Hin) as Hl.
    rewrite Hrem in Hl. simpl in Hl. lia. }
  exists ks, k0. split; [done|].
  assert (Hk2' : data c1 !! k2 = None) by by rewrite Hdata1.
  destruct (Set_fresh_full c1 k2 v ttl t_created t_accessed t_expiry HI1
              (k :: ks) k0 Hk2' Hfull1) as (Hev & Hkeys2 & _).
  { by rewrite Hkeys1. }
  pose proof (Set_Inv c1 k2 v ttl t_created t_accessed t_expiry HI1) as HI2.
  split; [done|]. split; [done|]. split.
  - apply (elem_of_lru_keys _ HI2). rewrite Hkeys2. set_solver.
  - destruct (data (Set_ c1 k2 v ttl t_created t_accessed t_expiry) !! k0)
      as [l0|] eqn:Hk0; [|done].
    exfalso. apply mk_is_Some, (elem_of_lru_keys _ HI2) in Hk0.
    rewrite Hkeys2 in Hk0.
    assert (Hk0in : k0 ∈ filter (λ k', k' ≠ k) (lru_keys c)).
    { rewrite Hrest, elem_of_app, list_elem_of_singleton. by right. }
    apply list_elem_of_filter in Hk0in as [Hk0k Hk0c].
    apply NoDup_app in Hnd1 as (_ & Hdis & _).
    apply elem_of_cons in Hk0 as [->|Hk0].
    + apply (elem_of_lru_keys c HI) in Hk0c. rewrite Hk2 in Hk0c. by destruct Hk0c.
    + apply elem_of_cons in Hk0 as [->|Hk0]; [done|].
      apply (Hdis k0 Hk0). by left.
Qed.

Lemma Get_then_Set_spares_the_key_just_read_witness :
  Inv sample ∧ currentSize sample = maxSize sample ∧
  (2 ≤ length (lru sample))%nat ∧
  lru_keys sample = ["b"; "a"] ∧
  ∃ ks k0,
    filter (λ k', k' ≠ "a") (lru_keys sample) = ks ++ [k0] ∧
    lru_keys (Set_ (Get sample "a" 6 6).2 "c" [] None 7 7 7) = "c" :: "a" :: ks.
Proof.
  split; [apply sample_Inv|]. split; [vm_compute; reflexivity|].
  split; [vm_compute; lia|]. split; [apply sample_lru_keys|].
  destruct (Get_then_Set_spares_the_key_just_read
              sample "a" "c" 0%nat (mkEntry "a" ["x"%byte] None 1 0 1 0%nat)
              [] None 6 6 7 7 7 sample_Inv)
    as (ks & k0 & Hrest & Hkeys & _); try (vm_compute; reflexivity).
  exists ks, k0. split; [exact Hrest|exact Hkeys].
Defined.

(** ** [Cleanup] behind the back of the readers *)

(** X13. [Cleanup] never changes what a later read sees.  For a key whose
    entry the sweep examined no later than the clock reading [now] of the
    read, [Get] returns and [Exists] answers after the sweep what they
    would have without it: the sweep only removes entries that are expired
    at [now] anyway. *)
Theorem Cleanup_is_invisible_to_later_reads
    (c : Cache) (visits : list (string * Z)) (key : string) (now t_access : Z) :
  Inv c → range_of c visits →
  (∀ t, (key, t) ∈ visits → t ≤ now) →
  (Get (Cleanup c visits).2 key now t_access).1 = (Get c key now t_access).1 ∧
  Exists (Cleanup c visits).2 key now = Exists c key now.
Proof.
  intros HI [Hnd Hrange] Hlater.
  destruct (Cleanup_fold visits 0 c HI) as (HI' & Hobjs & _ & _ & _ & Hmem).
  fold (Cleanup c visits) in *. set (r := Cleanup c visits) in *.
  rewrite !Get_visible, !Exists_visible.
  assert (Hvis : visible now (stored r.2 key) = visible now (stored c key));
    [|by rewrite Hvis].
  assert (Hkey : ∀ l, key_at r.2 l = key_at c l).
  { intros l. unfold key_at. by rewrite Hobjs. }
  destruct (data c !! key) as [l|] eqn:Hk.
  - destruct (inv_index c HI key l Hk) as (Hin & e & He & Hke).
    destruct (decide (l ∈ lru r.2)) as [Hin'|Hnin].
    + assert (Hk' : data r.2 !! key = Some l).
      { apply (index_iff_node _ HI'). split; [done|].
        by rewrite Hkey, (key_at_entry c l e He). }
      unfold stored. by rewrite Hk, Hk', Hobjs.
    + assert (Hk' : data r.2 !! key = None).
      { destruct (data r.2 !! key) as [l'|] eqn:Hk'; [|done].
        apply (index_iff_node _ HI') in Hk' as [Hin' Hkl']. rewrite Hkey in Hkl'.
        pose proof (proj1 (Hmem l') Hin') as [Hinc _].
        assert (l' = l) as ->; [|done].
        apply (key_at_inj c HI); [done|done|].
        by rewrite Hkl', (key_at_entry c l e He). }
      unfold stored. rewrite Hk, Hk', He. simpl.
      destruct (ExpiresAt e) as [d|] eqn:Hd.
      * destruct (d <? now) eqn:Hlt; [done|]. exfalso. apply Hnin, Hmem.
        split; [done|]. intros e0 t He0. rewrite He in He0. injection He0 as <-.
        rewrite Hke. intros Hv. specialize (Hlater t Hv).
        unfold is_expired. rewrite Hd. apply Z.ltb_ge in Hlt. apply Z.ltb_ge. lia.
      * exfalso. apply Hnin, Hmem. split; [done|].
        intros e0 t He0. rewrite He in He0. injection He0 as <-.
        intros _. unfold is_expired. by rewrite Hd.
  - assert (Hk' : data r.2 !! key = None).
    { destruct (data r.2 !! key) as [l'|] eqn:Hk'; [|done].
      apply (index_iff_node _ HI') in Hk' as [Hin' Hkl']. rewrite Hkey in Hkl'.
      pose proof (proj1 (Hmem l') Hin') as [Hinc _].
      assert (data c !! key = Some l') by by apply (index_iff_node c HI).
      congruence. }
    unfold stored. by rewrite Hk, Hk'.
Qed.

Lemma Cleanup_is_invisible_to_later_reads_witness :
  Inv sample ∧ range_of sample [("a", 20); ("b", 21)] ∧
  (Get (Cleanup sample [("a", 20); ("b", 21)]).2 "b" 25 25).1
  = (Get sample "b" 25 25).1 ∧
  (Get sample "b" 25 25).1 = None ∧
  (Get (Cleanup sample [("a", 20); ("b", 21)]).2 "a" 25 25).1 = Some ["x"%byte].
Proof.
  split; [apply sample_Inv|]. split; [apply sample_range|].
  split; [|split; vm_compute; reflexivity].
  apply (Cleanup_is_invisible_to_later_reads
           sample [("a", 20); ("b", 21)] "b" 25 25 sample_Inv sample_range).
  intros t. rewrite !elem_of_cons, elem_of_nil.
  intros [[= _ ->]|[[= ->]|[]]]. lia.
Defined.

(** X14. [Cleanup] leaves a cache alone when none of the entries it meets
    has passed its deadline at the reading taken for it: it returns 0 and
    the state is the one it was given.  Entries without a deadline never
    count as expired, so a cache that holds only such entries is never
    reaped, whatever the clock says and in whatever order the map is
    walked. *)
Theorem Cleanup_without_expired_entries_is_a_no_op
    (c : Cache) (visits : list (string * Z)) :
  (∀ k t l e, (k, t) ∈ visits → data c !! k = Some l → objs c !! l = Some e →
     ExpiresAt e = None ∨ ∃ d, ExpiresAt e = Some d ∧ t ≤ d) →
  Cleanup c visits = (0, c).
Proof.
  unfold Cleanup. generalize 0.
  induction visits as [|[k t] vs IH]; intros z Hlive; [done|]. cbn [foldl].
  rewrite Cleanup_step_kept.
  - apply IH. intros k' t' l e Hv. apply Hlive. by right.
  - intros l e Hk He. unfold is_expired.
    destruct (Hlive k t l e) as [->|(d & -> & Hd)]; [by left|done|done|done|].
    by apply Z.ltb_ge.
Qed.

Lemma Cleanup_without_expired_entries_is_a_no_op_witness :
  Cleanup sample [("a", 12); ("b", 15)] = (0, sample).
Proof.
  apply Cleanup_without_expired_entries_is_a_no_op.
  intros k t l e. rewrite !elem_of_cons, elem_of_nil.
  intros [[= -> ->]|[[= -> ->]|[]]].
  - intros Hk He. vm_compute in Hk. injection Hk as <-.
    vm_compute in He. injection He as <-. by left.
  - intros Hk He. vm_compute in Hk. injection Hk as <-.
    vm_compute in He. injection He as <-. right. exists 15. split; [done|lia].
Defined.

(** ** [Set] undone by [Delete] *)

(** X15. When [k] is not resident and there is room, [Set(k, ...)] followed
    by [Delete(k)] gives back the index, the recency list and the size that
    were there before, and every key has the value and deadline it had: the
    pair of calls leaves no trace a caller can observe.  [Delete] reports
    [true]. *)
Theorem Set_then_Delete_restores
    (c : Cache) (k : string) (v : list byte) (ttl : option Z)
    (t_created t_accessed t_expiry : Z) :
  Inv c → data c !! k = None → currentSize c < maxSize c →
  (Delete (Set_ c k v ttl t_created t_accessed t_expiry) k).1 = true ∧
  data (Delete (Set_ c k v ttl t_created t_accessed t_expiry) k).2 = data c ∧
  lru (Delete (Set_ c k v ttl t_created t_accessed t_expiry) k).2 = lru c ∧
  currentSize (Delete (Set_ c k v ttl t_created t_accessed t_expiry) k).2
  = currentSize c ∧
  (∀ k', stored (Delete (Set_ c k v ttl t_created t_accessed t_expiry) k).2 k'
         = stored c k').
Proof.
  intros HI Hk Hroom.
  destruct (Set_fresh_room c k v ttl t_created t_accessed t_expiry HI Hk Hroom)
    as (-> & _ & _).
  pose proof (Set_insert_Inv c k v ttl t_created t_accessed t_expiry HI) as HI2.
  revert HI2. rewrite (Set_insert_fresh c k v ttl _ _ _ Hk). intros HI2.
  destruct (next_loc_fresh c HI) as [Hnew Hfresh].
  unfold Delete. simpl. rewrite lookup_insert_eq. simpl.
  rewrite (removeEntry_indexed _ HI2 k (next_loc c)) by (simpl; apply lookup_insert_eq).
  simpl. rewrite delete_insert_eq, (delete_id _ _ Hk), (Remove_head _ _ Hfresh).
  split; [done|]. split; [done|]. split; [done|]. split; [lia|].
  intros k'. unfold stored. simpl.
  destruct (data c !! k') as [l'|] eqn:Hk'; [|done].
  rewrite lookup_insert_ne; [done|].
  intros <-. by apply Hfresh, (inv_index c HI k').
Qed.

Lemma Set_then_Delete_restores_witness :
  Inv (Delete sample "b").2 ∧ data (Delete sample "b").2 !! "c" = None ∧
  currentSize (Delete sample "b").2 < maxSize (Delete sample "b").2 ∧
  lru (Delete (Set_ (Delete sample "b").2 "c" [] None 9 9 9) "c").2
  = lru (Delete sample "b").2.
Proof.
  assert (HI : Inv (Delete sample "b").2) by apply Delete_Inv, sample_Inv.
  assert (Hk : data (Delete sample "b").2 !! "c" = None) by (vm_compute; reflexivity).
  assert (Hroom : currentSize (Delete sample "b").2 < maxSize (Delete sample "b").2)
    by (vm_compute; reflexivity).
  split; [exact HI|]. split; [exact Hk|]. split; [exact Hroom|].
  apply (Set_then_Delete_restores (Delete sample "b").2 "c" [] None 9 9 9 HI Hk Hroom).
Defined.

(** * The settings of the command *)

Lemma parse_digits_non_digit s : ∀ acc a,
  a ∈ bytes_of s → digit_of a = None → parse_digits acc s = None.
Proof.
  induction s as [|b s IH]; intros acc a Hin Hbad; simpl in *.
  - by apply elem_of_nil in Hin.
  - apply elem_of_cons in Hin as [->|Hin]; [by rewrite Hbad|].
    destruct (digit_of b); [|done]. by apply (IH _ a).
Qed.

Lemma parse_digits_nonneg s : ∀ acc n,
  0 ≤ acc → parse_digits acc s = Some n → 0 ≤ n.
Proof.
  induction s as [|b s IH]; intros acc n Hacc; simpl.
  - intros [= <-]. done.
  - unfold digit_of at 1.
    destruct ((48 <=? Z.of_N (N_of_ascii b)) && (Z.of_N (N_of_ascii b) <=? 57))
      eqn:Hd; [|done].
    apply andb_true_iff in Hd as [H1%Z.leb_le H2%Z.leb_le].
    apply IH. lia.
Qed.

Lemma Atoi_in_range s n : Atoi s = Some n → - 2 ^ 63 ≤ n < 2 ^ 63.
Proof.
  unfold Atoi. destruct s as [|a rest]; [done|].
  destruct (if Ascii.eqb a "-" || Ascii.eqb a "+" then rest else String a rest);
    [done|].
  destruct (parse_digits 0 _) as [m|]; [|done].
  destruct ((- 2 ^ 63 <=? _) && (_ <? 2 ^ 63)) eqn:Hr; [|done].
  intros [= <-]. apply andb_true_iff in Hr as [H1%Z.leb_le H2%Z.ltb_lt]. lia.
Qed.

(** X16. An integer setting falls back to its default, without any error,
    when the variable is not set, is set to the empty string, or holds
    anything but an optional sign followed by decimal digits: a sign alone,
    or any byte after the first that is not a digit (a blank, a letter, an
    underscore), or a first byte that is neither a digit nor a sign.
    Whatever the variable holds, the result is the default or an integer
    in the range of [int]. *)
Theorem getEnvInt_falls_back_on_malformed_values
    (env : gmap string string) (key : string) (defaultValue : Z) :
  (Getenv env key = "" → getEnvInt env key defaultValue = defaultValue) ∧
  (env !! key = None → getEnvInt env key defaultValue = defaultValue) ∧
  (∀ a, Getenv env key = String a "" → digit_of a = None →
        getEnvInt env key defaultValue = defaultValue) ∧
  (∀ a rest b, Getenv env key = String a rest → b ∈ bytes_of rest →
        digit_of b = None → getEnvInt env key defaultValue = defaultValue) ∧
  (∀ a rest, Getenv env key = String a rest → digit_of a = None →
        a ≠ "-"%char → a ≠ "+"%char →
        getEnvInt env key defaultValue = defaultValue) ∧
  (getEnvInt env key defaultValue = defaultValue ∨
   - 2 ^ 63 ≤ getEnvInt env key defaultValue < 2 ^ 63).
Proof.
  unfold getEnvInt. split; [by intros ->|]. split.
  { intros Hk. unfold Getenv. by rewrite Hk. }
  split.
  { intros a Hv Hbad. rewrite Hv. simpl. unfold Atoi.
    destruct (Ascii.eqb a "-" || Ascii.eqb a "+"); [done|].
    simpl. by rewrite Hbad. }
  split.
  { intros a rest b Hv Hin Hbad. rewrite Hv. simpl. unfold Atoi.
    destruct (Ascii.eqb a "-" || Ascii.eqb a "+").
    - destruct rest as [|r rest']; [done|].
      by rewrite (parse_digits_non_digit _ 0 b Hin Hbad).
    - rewrite (parse_digits_non_digit (String a rest) 0 b); [done| |done].
      simpl. by right. }
  split.
  { intros a rest Hv Hbad Hm Hp. rewrite Hv. simpl. unfold Atoi.
    apply Ascii.eqb_neq in Hm, Hp. rewrite Hm, Hp. simpl. by rewrite Hbad. }
  destruct (String.eqb (Getenv env key) ""); [by left|].
  destruct (Atoi (Getenv env key)) as [n|] eqn:Hn; [|by left].
  right. by apply (Atoi_in_range (Getenv env key)).
Qed.

(** X17. [parseFlags] yields the defaults (host 0.0.0.0, ports 8080 and
    8081, memory "1GB", policy "lru") when none of its five variables is
    set; a variable set to the empty string counts as not set; a text
    setting is taken as it is; and a port is taken as it is whenever it
    parses, with no check of its range: a minus sign in front of a port
    that parses gives the negative port. *)
Theorem parseFlags_defaults_and_unchecked_ports (env : gmap string string) :
  (Getenv env "CACHE_HOST" = "" → Getenv env "CACHE_PORT" = "" →
   Getenv env "CACHE_HTTP_PORT" = "" → Getenv env "CACHE_MAX_MEMORY" = "" →
   Getenv env "CACHE_EVICTION_POLICY" = "" →
   parseFlags env = mkConfig "0.0.0.0" 8080 8081 "1GB" "lru") ∧
  (∀ v, v ≠ "" → Getenv env "CACHE_HOST" = v → Host (parseFlags env) = v) ∧
  (∀ n, Atoi (Getenv env "CACHE_PORT") = Some n → Port (parseFlags env) = n) ∧
  (∀ d body n, Getenv env "CACHE_PORT" = String "-" (String d body) →
     Atoi (String d body) = Some n → is_Some (digit_of d) →
     Port (parseFlags env) = - n).
Proof.
  split; [|split; [|split]].
  - intros H1 H2 H3 H4 H5. unfold parseFlags, getEnv, getEnvInt.
    by rewrite H1, H2, H3, H4, H5.
  - intros v Hv Hhost. simpl. unfold getEnv. rewrite Hhost.
    destruct (String.eqb v "") eqn:E; [|done]. by apply String.eqb_eq in E.
  - intros n Hn. simpl. unfold getEnvInt. rewrite Hn.
    destruct (String.eqb _ "") eqn:E; [|done].
    apply String.eqb_eq in E. by rewrite E in Hn.
  - intros d body n Hv Hn [z Hd]. simpl. unfold getEnvInt. rewrite Hv.
    change (String.eqb (String "-" (String d body)) "") with false. cbv iota.
    revert Hn. unfold Atoi.
    assert (Ascii.eqb d "-" || Ascii.eqb d "+" = false) as Hsign.
    { apply orb_false_iff. split; apply Ascii.eqb_neq; intros ->; by vm_compute in Hd. }
    assert (Ascii.eqb d "-" = false) as Hminus.
    { by apply orb_false_iff in Hsign as [? _]. }
    rewrite Hsign, Hminus.
    change (Ascii.eqb "-" "-" || Ascii.eqb "-" "+") with true.
    change (Ascii.eqb "-" "-") with true. cbv iota.
    destruct (parse_digits 0 (String d body)) as [m|] eqn:Hm; [|done].
    pose proof (parse_digits_nonneg _ 0 m ltac:(lia) Hm).
    destruct ((- 2 ^ 63 <=? m) && (m <? 2 ^ 63)) eqn:Hr; [|done].
    intros [= <-]. apply andb_true_iff in Hr as [H1%Z.leb_le H2%Z.ltb_lt].
    rewrite (proj2 (andb_true_iff _ _)); [done|].
    split; [apply Z.leb_le|apply Z.ltb_lt]; lia.
Qed.

(** [Atoi] on the inputs that separate its cases. *)
Example Atoi_cases :
  Atoi "8080" = Some 8080 ∧ Atoi "+7" = Some 7 ∧ Atoi "-5" = Some (-5) ∧
  Atoi "007" = Some 7 ∧ Atoi "" = None ∧ Atoi "-" = None ∧ Atoi "+" = None ∧
  Atoi " 80" = None ∧ Atoi "80 " = None ∧ Atoi "1_000" = None ∧
  Atoi "0x50" = None ∧ Atoi "--5" = None ∧
  Atoi "9223372036854775807" = Some 9223372036854775807 ∧
  Atoi "9223372036854775808" = None ∧
  Atoi "-9223372036854775808" = Some (-9223372036854775808) ∧
  Atoi "-9223372036854775809" = None.
Proof. vm_compute. repeat split; reflexivity. Qed.

(** * C9: the hit rate [Stats] reports *)

Lemma none_read_sum_zero es :
  Forall (λ e, 0 ≤ AccessCount e) es → ever_read es = 0%nat → sum_accesses es = 0.
Proof.
  unfold ever_read. induction 1 as [|e es He Hall IH]; simpl; [done|].
  destruct (decide (0 < AccessCount e)) as [Hpos|Hzero].
  - by rewrite filter_cons_True.
  - rewrite filter_cons_False by done. intros Hnone. rewrite IH by done. lia.
Qed.

(** C9, as the code has it.  In every state with the invariant, the
    [hit_rate] of [Stats] is 0 when the [int64] sum of the access counters
    of the resident entries is 0, and otherwise the [float64] quotient
    [float64(h) / float64(n)], [h] the [int64] count of resident entries
    with [AccessCount > 0] and [n = len(c.data)], the number of resident
    entries.  With no counter overflow that is: 0 when no resident entry
    has been read, the empty cache included (there the test of
    [totalRequests] is what yields 0, the division would give NaN), and the
    [float64] quotient of the number of resident entries read by the number
    of resident entries otherwise: a resident-key fraction, in [float64],
    not the exact rational. *)
Theorem hit_rate_is_float64_quotient_of_resident_keys_read (c : Cache) :
  Inv c →
  length (resident c) = size (data c) ∧
  calculateHitRate64 c
  = (if wrap64 (sum_accesses (resident c)) =? 0 then SpecFloat.S754_zero false
     else float64_div
            (float64_of_int (wrap64 (Z.of_nat (ever_read (resident c)))))
            (float64_of_int (Z.of_nat (size (data c))))) ∧
  (counters_in_range c →
   calculateHitRate64 c
   = (if decide (ever_read (resident c) = 0%nat) then SpecFloat.S754_zero false
      else float64_div
             (float64_of_int (Z.of_nat (ever_read (resident c))))
             (float64_of_int (Z.of_nat (size (data c)))))) ∧
  (data c = ∅ → calculateHitRate64 c = SpecFloat.S754_zero false) ∧
  float64_div (float64_of_int 0) (float64_of_int 0) = SpecFloat.S754_nan.
Proof.
  intros HI. pose proof (length_resident c HI) as Hlen.
  assert (Hgen : calculateHitRate64 c
    = (if wrap64 (sum_accesses (resident c)) =? 0 then SpecFloat.S754_zero false
       else float64_div
              (float64_of_int (wrap64 (Z.of_nat (ever_read (resident c)))))
              (float64_of_int (Z.of_nat (size (data c)))))).
  { unfold calculateHitRate64. by rewrite totalRequests_closed, totalHits_closed. }
  split; [done|]. split; [done|]. split; [|split; [|done]].
  - intros (Hall & Hsum & Hsize). rewrite Hgen.
    pose proof (sum_accesses_nonneg _ Hall) as Hnn.
    pose proof (ever_read_le (resident c)) as Hle.
    rewrite (wrap64_small (sum_accesses (resident c))) by lia.
    rewrite (wrap64_small (Z.of_nat (ever_read (resident c)))) by lia.
    destruct (decide (ever_read (resident c) = 0%nat)) as [Hnone|Hsome].
    + by rewrite (none_read_sum_zero _ Hall Hnone).
    + destruct (sum_accesses (resident c) =? 0) eqn:Hz; [|done].
      apply Z.eqb_eq in Hz. destruct Hsome. by apply sum_zero_none_read.
  - intros Hempty. unfold calculateHitRate64, resident.
    by rewrite Hempty, map_to_list_empty.
Qed.

Lemma hit_rate_is_float64_quotient_of_resident_keys_read_witness :
  Inv sample_read ∧ counters_in_range sample_read ∧
  ever_read (resident sample_read) = 1%nat ∧ size (data sample_read) = 2%nat ∧
  calculateHitRate64 sample_read
  = float64_div (float64_of_int 1) (float64_of_int 2) ∧
  float64_value (calculateHitRate64 sample_read) = Some (4503599627370496 # 9007199254740992)%Q.
Proof.
  split; [apply sample_read_Inv|]. split; [apply sample_read_counters|].
  split; [vm_compute; reflexivity|]. split; [vm_compute; reflexivity|].
  destruct (hit_rate_is_float64_quotient_of_resident_keys_read
              sample_read sample_read_Inv) as (_ & _ & Hrate & _).
  rewrite (Hrate sample_read_counters).
  split; vm_compute; reflexivity.
Defined.

(** C9, as the claim states it, fails: with three resident keys of which one
    was read, the number of entries read divided by the number of entries
    is the rational 1/3, and the hit rate is the [float64]
    6004799503160661 / 2^54, which is not 1/3. *)
Lemma hit_rate_of_one_in_three_is_not_one_third :
  ever_read (resident three_keys_one_read) = 1%nat ∧
  size (data three_keys_one_read) = 3%nat ∧
  calculateHitRate64 three_keys_one_read
  = SpecFloat.S754_finite false 6004799503160661 (-54) ∧
  float64_value (calculateHitRate64 three_keys_one_read)
  = Some (6004799503160661 # 18014398509481984)%Q ∧
  ¬ (6004799503160661 # 18014398509481984 == 1 # 3)%Q.
Proof.
  split; [vm_compute; reflexivity|]. split; [vm_compute; reflexivity|].
  split; [vm_compute; reflexivity|]. split; [vm_compute; reflexivity|].
  unfold Qeq. simpl. discriminate.
Qed.

(** Three hits and one miss on a single resident key, in [float64]: the hit
    rate is 1.0, not 0.75. *)
Example hit_rate64_ignores_misses :
  let c0 := Set_ (NewCache 2) "a" ["x"%byte] None 1 1 1 in
  let c1 := (Get c0 "a" 2 2).2 in
  let c2 := (Get c1 "a" 3 3).2 in
  let c3 := (Get c2 "a" 4 4).2 in
  (Get c3 "zz" 5 5).1 = None ∧
  calculateHitRate64 (Get c3 "zz" 5 5).2 = SpecFloat.S754_finite false 4503599627370496 (-52) ∧
  float64_value (calculateHitRate64 (Get c3 "zz" 5 5).2) = Some (4503599627370496 # 4503599627370496)%Q.
Proof. vm_compute. repeat split; reflexivity. Qed.
